(** * codetango: the barrier client (src/src/codetango.cpp, src/include/codetango.h)

    A shallow embedding of [codetango::Barrier]: its fields, the [std::map]
    that holds the registered variables, the text the string streams
    produce, the system calls the methods make, and the methods themselves.
    Theorems about the embedding follow the definitions. *)

From Stdlib Require Import Decimal DecimalFacts DecimalPos DecimalZ DecimalString.
From Stdlib Require Hexadecimal HexadecimalString.
From Stdlib Require Import Ascii String.
From Stdlib Require Import List Bool Arith ZArith NArith Lia.
From Stdlib Require Import Sorting.Sorted.
Import ListNotations.

Local Open Scope list_scope.

(** ** Byte strings

    A [std::string] is a sequence of [char]; a [char] is one byte, modelled
    by [ascii] (eight bits).  Literals of the source are written with [q],
    where an apostrophe stands for the double quote character (no literal of
    the source contains an apostrophe). *)

Definition str : Type := list ascii.

Definition DQ : ascii := "034"%char.
Definition BACKSLASH : ascii := "092"%char.
Definition NUL : ascii := "000"%char.

Definition q (s : String.string) : str :=
  map (fun c => if Ascii.eqb c "'"%char then DQ else c)
      (String.list_ascii_of_string s).
Arguments q s%_string.

(** [std::string::compare]: the bytes are compared as unsigned values
    ([char_traits<char>::lt]), the shorter string first on a common prefix. *)
Fixpoint str_compare (a b : str) : comparison :=
  match a, b with
  | [], [] => Eq
  | [], _ :: _ => Lt
  | _ :: _, [] => Gt
  | x :: a', y :: b' =>
      match Ascii.compare x y with
      | Eq => str_compare a' b'
      | c => c
      end
  end.

Definition str_lt (a b : str) : Prop := str_compare a b = Lt.

Definition str_eqb (a b : str) : bool :=
  match str_compare a b with Eq => true | _ => false end.

(** Does [p] start [s]? *)
Fixpoint starts_with (p s : str) : bool :=
  match p, s with
  | [], _ => true
  | _ :: _, [] => false
  | x :: p', y :: s' => Ascii.eqb x y && starts_with p' s'
  end.

(** [std::string::find(needle)]: the position of the first occurrence,
    [None] for [npos]. *)
Fixpoint find (hay needle : str) : option nat :=
  if starts_with needle hay then Some 0
  else match hay with
       | [] => None
       | _ :: hay' => option_map S (find hay' needle)
       end.

(** [needle] occurs in [hay] at byte offset [i]. *)
Definition occurs_at (needle hay : str) (i : nat) : Prop :=
  firstn (length needle) (skipn i hay) = needle.

(** The [std::string(const char* )] constructor reads up to the first NUL. *)
Fixpoint c_str_to_string (buf : list ascii) : str :=
  match buf with
  | [] => []
  | c :: buf' => if Ascii.eqb c NUL then [] else c :: c_str_to_string buf'
  end.

(** Pieces joined with a separator, as the loops over a sequence do with
    their "first" test. *)
Fixpoint join (sep : str) (l : list str) : str :=
  match l with
  | [] => []
  | [x] => x
  | x :: l' => x ++ sep ++ join sep l'
  end.

(** ** The variable map

    [std::map<std::string, std::pair<std::string, std::string>>]: an ordered
    container with unique keys; iteration visits the keys in increasing
    [std::less<std::string>] order.  Modelled by the sequence of its
    entries in iteration order. *)

Definition var_entry : Type := (str * (str * str))%type.
Definition var_map : Type := list var_entry.

(** [m[k] = v] *)
Fixpoint map_assign (k : str) (v : str * str) (m : var_map) : var_map :=
  match m with
  | [] => [(k, v)]
  | (k', v') :: m' =>
      match str_compare k k' with
      | Lt => (k, v) :: (k', v') :: m'
      | Eq => (k', v) :: m'
      | Gt => (k', v') :: map_assign k v m'
      end
  end.

Fixpoint map_find (k : str) (m : var_map) : option (str * str) :=
  match m with
  | [] => None
  | (k', v') :: m' => if str_eqb k k' then Some v' else map_find k m'
  end.

Definition map_clear (m : var_map) : var_map := [].

Definition keys (m : var_map) : list str := map fst m.

(** ** What the string streams write

    The text [operator<<] produces for the types the source writes: [int]
    in decimal, [int] under [std::hex] with [std::setw(4)] and
    [std::setfill('0')], and [double] in the default float notation
    ([%g] with precision 6). *)

(** [ss << value] for an [int] *)
Definition ostream_int (v : Z) : str :=
  list_ascii_of_string (DecimalString.NilZero.string_of_int (Z.to_int v)).

(** [(int)c] for a [char c]: [char] is signed here, the bytes from 0x80 up are
    negative.  (Where [char] is unsigned they are above 0x1f; the range test
    of [escape_json_string] fails for them either way.) *)
Definition int_of_char (c : ascii) : Z :=
  let n := Z.of_N (N_of_ascii c) in
  if (n <? 128)%Z then n else (n - 256)%Z.

(** [ss << std::hex << std::setw(4) << std::setfill('0') << n] for an [int]:
    the value as an unsigned 32-bit number in lower case hexadecimal, filled
    on the left with '0' up to four characters. *)
Definition ostream_hex_w4 (n : Z) : str :=
  let digits :=
    list_ascii_of_string
      (HexadecimalString.NilZero.string_of_uint
         (N.to_hex_uint (Z.to_N (n mod 2 ^ 32)%Z))) in
  repeat "0"%char (4 - length digits) ++ digits.

(** A [double] by its IEEE 754 class: a zero, an infinity, a NaN (each with
    its sign bit), or the finite non-zero value [(-1)^neg * m * 2^e]. *)
Inductive double : Type :=
| Dzero (neg : bool)
| Dinf (neg : bool)
| Dnan (neg : bool)
| Dfinite (neg : bool) (m : positive) (e : Z).

Definition digit_char (d : digits) : ascii :=
  match d with
  | d0 => "0" | d1 => "1" | d2 => "2" | d3 => "3" | d4 => "4"
  | d5 => "5" | d6 => "6" | d7 => "7" | d8 => "8" | d9 => "9"
  end%char.

Definition digit_is_zero (d : digits) : bool :=
  match d with d0 => true | _ => false end.

Definition digit_odd (d : digits) : bool :=
  match d with d1 | d3 | d5 | d7 | d9 => true | _ => false end.

(** A digit plus one: the new digit and the carry. *)
Definition digit_succ (d : digits) : digits * bool :=
  match d with
  | d0 => (d1, false) | d1 => (d2, false) | d2 => (d3, false)
  | d3 => (d4, false) | d4 => (d5, false) | d5 => (d6, false)
  | d6 => (d7, false) | d7 => (d8, false) | d8 => (d9, false)
  | d9 => (d0, true)
  end.

(** One added to a number given by its digits, most significant first;
    the flag is the carry out of the first digit. *)
Fixpoint digits_succ (l : list digits) : list digits * bool :=
  match l with
  | [] => ([], true)
  | d :: l' =>
      let '(r, c) := digits_succ l' in
      if c then let '(d', c') := digit_succ d in (d' :: r, c')
      else (d :: r, false)
  end.

(** Must the part kept be rounded up, given the digits dropped after it?
    Round to nearest, ties to even. *)
Definition rounds_up (kept dropped : list digits) : bool :=
  match dropped with
  | [] => false
  | t :: rest =>
      match t with
      | d0 | d1 | d2 | d3 | d4 => false
      | d5 => negb (forallb digit_is_zero rest) || digit_odd (last kept d0)
      | _ => true
      end
  end.

(** The decimal digits [l] of a positive number (no leading zero) rounded
    to [p] significant digits: exactly [p] digits, and 1 when the rounding
    carried into a new leading digit. *)
Definition round_significant (p : nat) (l : list digits) : list digits * Z :=
  let kept := firstn p l ++ repeat d0 (p - length l) in
  if rounds_up kept (skipn p l) then
    let '(r, c) := digits_succ kept in
    if c then (d1 :: repeat d0 (p - 1), 1%Z) else (r, 0%Z)
  else (kept, 0%Z).

Fixpoint strip_leading_zeros (l : list digits) : list digits :=
  match l with
  | d0 :: l' => strip_leading_zeros l'
  | _ => l
  end.

Definition strip_trailing_zeros (l : list digits) : list digits :=
  List.rev (strip_leading_zeros (List.rev l)).

Definition fraction_text (frac : list digits) : str :=
  match strip_trailing_zeros frac with
  | [] => []
  | f => "."%char :: map digit_char f
  end.

(** The exponent of the scientific notation: a sign and at least two
    digits. *)
Definition exponent_text (x : Z) : str :=
  let ds := map digit_char (to_list (N.to_uint (Z.abs_N x))) in
  "e"%char :: (if (x <? 0)%Z then "-"%char else "+"%char)
           :: repeat "0"%char (2 - length ds) ++ ds.

(** [%g] with precision [p = 6] of [m * 2^e].  The value is a finite decimal
    [n * 10^k] ([n = m * 2^e], [k = 0] when [0 <= e]; [n = m * 5^(-e)],
    [k = e] otherwise), so its significant digits are those of [n]. *)
Definition format_g (m : positive) (e : Z) : str :=
  let n := if (0 <=? e)%Z then (Z.pos m * 2 ^ e)%Z else (Z.pos m * 5 ^ (- e))%Z in
  let k := if (0 <=? e)%Z then 0%Z else e in
  let l := to_list (N.to_uint (Z.to_N n)) in
  let '(sig, carry) := round_significant 6 l in
  let x := (Z.of_nat (length l) - 1 + k + carry)%Z in
  if ((-4 <=? x) && (x <? 6))%Z then
    if (0 <=? x)%Z then
      map digit_char (firstn (Z.to_nat x + 1) sig)
        ++ fraction_text (skipn (Z.to_nat x + 1) sig)
    else
      q "0." ++ repeat "0"%char (Z.to_nat (- x - 1))
        ++ map digit_char (strip_trailing_zeros sig)
  else
    map digit_char (firstn 1 sig) ++ fraction_text (skipn 1 sig)
      ++ exponent_text x.

Definition sign_text (neg : bool) : str := if neg then q "-" else [].

(** [ss << value] for a [double] *)
Definition ostream_double (v : double) : str :=
  match v with
  | Dzero neg => sign_text neg ++ q "0"
  | Dinf neg => sign_text neg ++ q "inf"
  | Dnan neg => sign_text neg ++ q "nan"
  | Dfinite neg m e => sign_text neg ++ format_g m e
  end.

(** ** Reference JSON syntax

    The definitions of this section are not code of the repository: they
    are the JSON grammar (RFC 8259) against which the text the client writes
    is judged. *)

Definition is_digit (c : ascii) : bool :=
  (N.leb 48 (N_of_ascii c) && N.leb (N_of_ascii c) 57)%bool.

Fixpoint skip_digits (s : str) : str :=
  match s with
  | c :: s' => if is_digit c then skip_digits s' else s
  | [] => []
  end.

(** One or more digits, then the rest. *)
Definition digits1 (s : str) : option str :=
  match s with
  | c :: s' => if is_digit c then Some (skip_digits s') else None
  | [] => None
  end.

(** number = [ minus ] int [ frac ] [ exp ] *)
Definition json_int_part (s : str) : option str :=
  match s with
  | c :: s' =>
      if Ascii.eqb c "0" then Some s'
      else if is_digit c then Some (skip_digits s')
      else None
  | [] => None
  end.

Definition json_frac_part (s : str) : option str :=
  match s with
  | c :: s' => if Ascii.eqb c "." then digits1 s' else Some s
  | [] => Some s
  end.

Definition json_exp_part (s : str) : option str :=
  match s with
  | c :: s' =>
      if (Ascii.eqb c "e" || Ascii.eqb c "E")%bool then
        match s' with
        | c' :: s'' =>
            if (Ascii.eqb c' "+" || Ascii.eqb c' "-")%bool then digits1 s''
            else digits1 s'
        | [] => None
        end
      else Some s
  | [] => Some s
  end.

Definition is_json_number (s : str) : bool :=
  let s1 := match s with
            | c :: s' => if Ascii.eqb c "-" then s' else s
            | [] => s
            end in
  match json_int_part s1 with
  | Some s2 =>
      match json_frac_part s2 with
      | Some s3 =>
          match json_exp_part s3 with
          | Some [] => true
          | _ => false
          end
      | None => false
      end
  | None => false
  end.

Definition hex_value (c : ascii) : option N :=
  let n := N_of_ascii c in
  if (N.leb 48 n && N.leb n 57)%bool then Some (n - 48)%N
  else if (N.leb 97 n && N.leb n 102)%bool then Some (n - 87)%N
  else if (N.leb 65 n && N.leb n 70)%bool then Some (n - 55)%N
  else None.

Definition hex4_value (a b c d : ascii) : option N :=
  match hex_value a, hex_value b, hex_value c, hex_value d with
  | Some x, Some y, Some z, Some w => Some (((x * 16 + y) * 16 + z) * 16 + w)%N
  | _, _, _, _ => None
  end.

(** The UTF-8 bytes of a code point. *)
Definition utf8 (cp : N) : str :=
  if (cp <? 128)%N then [ascii_of_N cp]
  else if (cp <? 2048)%N then
    [ascii_of_N (192 + cp / 64); ascii_of_N (128 + cp mod 64)]
  else if (cp <? 65536)%N then
    [ascii_of_N (224 + cp / 4096); ascii_of_N (128 + (cp / 64) mod 64);
     ascii_of_N (128 + cp mod 64)]
  else
    [ascii_of_N (240 + cp / 262144); ascii_of_N (128 + (cp / 4096) mod 64);
     ascii_of_N (128 + (cp / 64) mod 64); ascii_of_N (128 + cp mod 64)].

Definition is_high_surrogate (cp : N) : bool := (N.leb 55296 cp && N.leb cp 56319)%bool.
Definition is_low_surrogate (cp : N) : bool := (N.leb 56320 cp && N.leb cp 57343)%bool.

(** The character a two-character escape stands for. *)
Definition simple_escape (c : ascii) : option ascii :=
  if Ascii.eqb c DQ then Some DQ
  else if Ascii.eqb c BACKSLASH then Some BACKSLASH
  else if Ascii.eqb c "/" then Some "/"%char
  else if Ascii.eqb c "b" then Some "008"%char
  else if Ascii.eqb c "f" then Some "012"%char
  else if Ascii.eqb c "n" then Some "010"%char
  else if Ascii.eqb c "r" then Some "013"%char
  else if Ascii.eqb c "t" then Some "009"%char
  else None.

(** A JSON string decoder: the characters between the quotes of a JSON
    string to the bytes (UTF-8) of the string it denotes; [None] when the
    text is not the inside of a JSON string (a bare quote or control
    character, a bad escape, a lone surrogate). *)
Fixpoint json_string_decode (s : str) : option str :=
  match s with
  | [] => Some []
  | c :: s1 =>
      if Ascii.eqb c BACKSLASH then
        match s1 with
        | e :: s2 =>
            if Ascii.eqb e "u" then
              match s2 with
              | h1 :: h2 :: h3 :: h4 :: s3 =>
                  match hex4_value h1 h2 h3 h4 with
                  | Some cp =>
                      if is_high_surrogate cp then
                        match s3 with
                        | b' :: u' :: l1 :: l2 :: l3 :: l4 :: s4 =>
                            match hex4_value l1 l2 l3 l4 with
                            | Some lo =>
                                if (Ascii.eqb b' BACKSLASH && Ascii.eqb u' "u"
                                    && is_low_surrogate lo)%bool
                                then option_map
                                       (List.app (utf8 (65536 + (cp - 55296) * 1024
                                                   + (lo - 56320))%N))
                                       (json_string_decode s4)
                                else None
                            | None => None
                            end
                        | _ => None
                        end
                      else if is_low_surrogate cp then None
                      else option_map (List.app (utf8 cp)) (json_string_decode s3)
                  | None => None
                  end
              | _ => None
              end
            else
              match simple_escape e with
              | Some ch => option_map (cons ch) (json_string_decode s2)
              | None => None
              end
        | [] => None
        end
      else if (Ascii.eqb c DQ || N.ltb (N_of_ascii c) 32)%bool then None
      else option_map (cons c) (json_string_decode s1)
  end.

(** ** The client: state, system calls, errors *)

(** The fields of [class Barrier]. *)
Record Barrier : Type := mkBarrier {
  program_id_ : str;
  socket_fd_ : Z;
  connected_ : bool;
  variables_ : var_map
}.

Definition set_variables (m : var_map) (b : Barrier) : Barrier :=
  mkBarrier (program_id_ b) (socket_fd_ b) (connected_ b) m.

Definition set_socket_fd (fd : Z) (b : Barrier) : Barrier :=
  mkBarrier (program_id_ b) fd (connected_ b) (variables_ b).

Definition set_connected (c : bool) (b : Barrier) : Barrier :=
  mkBarrier (program_id_ b) (socket_fd_ b) c (variables_ b).

(** What a method does to the outside, in order: the calls it makes and the
    lines it writes to [std::cerr]. *)
Inductive event : Type :=
| Getenv (name : str)
| Socket
| Connect (fd : Z) (path : str)
| Send (fd : Z) (data : str)
| Recv (fd : Z) (len : nat)
| Close (fd : Z)
| Cerr (line : str).

(** What the outside answers during one method call.  [recv_data] is
    [None] when [recv] fails, otherwise the bytes waiting on the connection
    (none: the peer has closed it). *)
Record world : Type := mkWorld {
  getenv_CODETANGO_SOCKET : option str;
  socket_result : Z;
  connect_result : Z;
  send_result : Z;
  recv_data : option str;
  strerror_errno : str
}.

(** [recv(fd, buffer, len, 0)]: the count returned and the bytes stored. *)
Definition recv (w : world) (len : nat) : Z * list ascii :=
  match recv_data w with
  | None => ((-1)%Z, [])
  | Some d => (Z.of_nat (length (firstn len d)), firstn len d)
  end.

(** Every [throw] of the source throws a [std::runtime_error]. *)
Inductive exn : Type :=
| runtime_error (what : str).

Definition what (e : exn) : str := match e with runtime_error m => m end.

(** The three kinds of error of the specification, told apart by the
    message of the exception. *)
Inductive error_kind : Type :=
| ConfigurationError
| ConnectionError
| NotConnectedError.

Definition error_kind_of (e : exn) : option error_kind :=
  if str_eqb (what e) (q "CODETANGO_SOCKET environment variable not set")
  then Some ConfigurationError
  else if (starts_with (q "Failed to create socket: ") (what e)
           || starts_with (q "Failed to connect to CodeTango: ") (what e)
           || starts_with (q "Failed to send init message: ") (what e))%bool
  then Some ConnectionError
  else if str_eqb (what e) (q "Not connected to CodeTango utility")
  then Some NotConnectedError
  else None.

Definition NEWLINE : ascii := "010"%char.

(** [sizeof(addr.sun_path)] of [struct sockaddr_un] *)
Definition sun_path_size : nat := 108.

(** ** The methods of [Barrier] *)

(** [Barrier::escape_json_string], one character of the loop *)
Definition escape_json_char (c : ascii) : str :=
  if Ascii.eqb c DQ then q "\'"
  else if Ascii.eqb c BACKSLASH then q "\\"
  else if Ascii.eqb c "008" then q "\b"
  else if Ascii.eqb c "012" then q "\f"
  else if Ascii.eqb c "010" then q "\n"
  else if Ascii.eqb c "013" then q "\r"
  else if Ascii.eqb c "009" then q "\t"
  else if ((0 <=? int_of_char c) && (int_of_char c <=? 31))%Z
  then q "\u" ++ ostream_hex_w4 (int_of_char c)
  else [c].

(** [Barrier::escape_json_string] *)
Definition escape_json_string (s : str) : str :=
  fold_left (fun ss c => ss ++ escape_json_char c) s [].

(** [Barrier::make_barrier_json], the body of the loop over [variables_]:
    the stream and the flag [first] before and after one entry. *)
Definition barrier_json_step (acc : str * bool) (var : var_entry) : str * bool :=
  let '(ss, first) := acc in
  let ss := if negb first then ss ++ q "," else ss in
  let escaped_name := escape_json_string (fst var) in
  let type := fst (snd var) in
  let value := snd (snd var) in
  let value := if str_eqb type (q "string")
               then q "'" ++ escape_json_string value ++ q "'"
               else value in
  (ss ++ q "'" ++ escaped_name ++ q "':" ++ value, false).

(** [Barrier::make_barrier_json] *)
Definition make_barrier_json (barrier_id : str) (b : Barrier) : str :=
  let ss := q "{" in
  let ss := ss ++ q "'barrier_id':'" ++ barrier_id ++ q "'," in
  let ss := ss ++ q "'variables':{" in
  let '(ss, _) := fold_left barrier_json_step (variables_ b) (ss, true) in
  ss ++ q "}}".

(** The loop of [add_int_vector] and [add_double_vector]: the stream after
    the elements from index [i] on, [put] writing one element. *)
Fixpoint vector_loop {A : Type} (put : A -> str) (i : nat) (values : list A)
  (ss : str) : str :=
  match values with
  | [] => ss
  | v :: values' =>
      let ss := if (0 <? i)%nat then ss ++ q "," else ss in
      vector_loop put (S i) values' (ss ++ put v)
  end.

Definition add_int (name : str) (value : Z) (b : Barrier) : Barrier :=
  set_variables (map_assign name (q "int", ostream_int value) (variables_ b)) b.

Definition add_double (name : str) (value : double) (b : Barrier) : Barrier :=
  set_variables
    (map_assign name (q "double", ostream_double value) (variables_ b)) b.

Definition add_string (name : str) (value : str) (b : Barrier) : Barrier :=
  set_variables (map_assign name (q "string", value) (variables_ b)) b.

Definition add_bool (name : str) (value : bool) (b : Barrier) : Barrier :=
  set_variables
    (map_assign name (q "bool", if value then q "true" else q "false")
       (variables_ b)) b.

Definition add_int_vector (name : str) (values : list Z) (b : Barrier) : Barrier :=
  let ss := vector_loop ostream_int 0 values (q "[") ++ q "]" in
  set_variables (map_assign name (q "int_vector", ss) (variables_ b)) b.

Definition add_double_vector (name : str) (values : list double) (b : Barrier)
  : Barrier :=
  let ss := vector_loop ostream_double 0 values (q "[") ++ q "]" in
  set_variables (map_assign name (q "double_vector", ss) (variables_ b)) b.

(** [Barrier::connect]: the exception thrown or the client after the call,
    and what the call did. *)
Definition connect (w : world) (b : Barrier) : (exn + Barrier) * list event :=
  let ev0 := [Getenv (q "CODETANGO_SOCKET")] in
  match getenv_CODETANGO_SOCKET w with
  | None =>
      (inl (runtime_error (q "CODETANGO_SOCKET environment variable not set")),
       ev0)
  | Some socket_path =>
      let b := set_socket_fd (socket_result w) b in
      let ev1 := ev0 ++ [Socket] in
      if (socket_fd_ b =? -1)%Z then
        (inl (runtime_error (q "Failed to create socket: " ++ strerror_errno w)),
         ev1)
      else
        let sun_path := firstn (sun_path_size - 1) socket_path in
        let ev2 := ev1 ++ [Connect (socket_fd_ b) sun_path] in
        if (connect_result w =? -1)%Z then
          (inl (runtime_error
                  (q "Failed to connect to CodeTango: " ++ strerror_errno w)),
           ev2 ++ [Close (socket_fd_ b)])
        else
          let init_json := q "{'program_id':'" ++ program_id_ b ++ q "'}" in
          let ev3 := ev2 ++ [Send (socket_fd_ b) init_json] in
          if (send_result w =? -1)%Z then
            (inl (runtime_error
                    (q "Failed to send init message: " ++ strerror_errno w)),
             ev3 ++ [Close (socket_fd_ b)])
          else (inr (set_connected true b), ev3)
  end.

(** [Barrier::Barrier]: [socket_fd_] has no initialiser, [uninit] is the
    value it happens to hold. *)
Definition Barrier_new (w : world) (uninit : Z) (program_id : str)
  : (exn + Barrier) * list event :=
  connect w (mkBarrier program_id uninit false []).

(** [Barrier::~Barrier]: the body assigns no field. *)
Definition Barrier_delete (b : Barrier) : Barrier * list event :=
  if connected_ b then (b, [Close (socket_fd_ b)]) else (b, []).

Definition success_token : str := q "'status':'success'".

(** [Barrier::wait]: the exception thrown or the value returned, the client
    after the call, and what the call did. *)
Definition wait (w : world) (barrier_id : str) (b : Barrier)
  : (exn + bool) * Barrier * list event :=
  if negb (connected_ b) then
    (inl (runtime_error (q "Not connected to CodeTango utility")), b, [])
  else
    let json := make_barrier_json barrier_id b in
    let ev1 := [Send (socket_fd_ b) json] in
    if (send_result w =? -1)%Z then
      (inr false, b,
       ev1 ++ [Cerr (q "Error sending barrier message: " ++ strerror_errno w
                       ++ [NEWLINE])])
    else
      let '(received, buffer) := recv w (4096 - 1) in
      let ev2 := ev1 ++ [Recv (socket_fd_ b) (4096 - 1)] in
      if (received <=? 0)%Z then
        (inr false, b,
         ev2 ++ [Cerr (q "Error receiving barrier response: "
                         ++ (if (received =? 0)%Z then q "Connection closed"
                             else strerror_errno w)
                         ++ [NEWLINE])])
      else
        let buffer := buffer ++ [NUL] in
        let response := c_str_to_string buffer in
        let success :=
          match find response success_token with
          | Some _ => true
          | None => false
          end in
        let b := set_variables (map_clear (variables_ b)) b in
        (inr success, b, ev2).

(** ** Typed values

    The six [add_...] methods seen as one operation on a tagged value. *)
Inductive TypedValue : Type :=
| Integer (v : Z)
| Double (v : double)
| String_ (v : str)
| Boolean (v : bool)
| IntegerSequence (l : list Z)
| DoubleSequence (l : list double).

Definition add (name : str) (v : TypedValue) (b : Barrier) : Barrier :=
  match v with
  | Integer z => add_int name z b
  | Double d => add_double name d b
  | String_ s => add_string name s b
  | Boolean t => add_bool name t b
  | IntegerSequence l => add_int_vector name l b
  | DoubleSequence l => add_double_vector name l b
  end.

(** A call of a public method that can change the client, and a sequence
    of such calls. *)
Inductive call : Type :=
| CallAdd (name : str) (v : TypedValue)
| CallWait (w : world) (barrier_id : str).

Definition do_call (b : Barrier) (c : call) : Barrier :=
  match c with
  | CallAdd name v => add name v b
  | CallWait w barrier_id => snd (fst (wait w barrier_id b))
  end.

Definition run (cs : list call) (b : Barrier) : Barrier := fold_left do_call cs b.

(** ** The wire format as the specification words it

    The encoding of a typed value in the barrier request, per tag, and one
    member of the [variables] object.  These follow the specification; the
    theorems below compare them with what the methods write. *)

Definition tag_of (v : TypedValue) : str :=
  match v with
  | Integer _ => q "int"
  | Double _ => q "double"
  | String_ _ => q "string"
  | Boolean _ => q "bool"
  | IntegerSequence _ => q "int_vector"
  | DoubleSequence _ => q "double_vector"
  end.

Definition spec_encode_value (v : TypedValue) : str :=
  match v with
  | Integer z => ostream_int z
  | Double d => ostream_double d
  | String_ s => q "'" ++ escape_json_string s ++ q "'"
  | Boolean t => if t then q "true" else q "false"
  | IntegerSequence l => q "[" ++ join (q ",") (map ostream_int l) ++ q "]"
  | DoubleSequence l => q "[" ++ join (q ",") (map ostream_double l) ++ q "]"
  end.

Definition spec_encode_member (name : str) (v : TypedValue) : str :=
  q "'" ++ escape_json_string name ++ q "':" ++ spec_encode_value v.

Definition is_finite (d : double) : bool :=
  match d with
  | Dzero _ | Dfinite _ _ _ => true
  | Dinf _ | Dnan _ => false
  end.

(** ** Notions used in the statements *)

(** What an [add] stores: the tag and the text of the value. *)
Definition stored (v : TypedValue) : str * str :=
  (tag_of v,
   match v with
   | String_ s => s
   | _ => spec_encode_value v
   end).

(** The text [make_barrier_json] writes for one entry of [variables_]. *)
Definition value_text (var : var_entry) : str :=
  if str_eqb (fst (snd var)) (q "string")
  then q "'" ++ escape_json_string (snd (snd var)) ++ q "'"
  else snd (snd var).

Definition member_text (var : var_entry) : str :=
  q "'" ++ escape_json_string (fst var) ++ q "':" ++ value_text var.

(** The handshake message. *)
Definition handshake (program_id : str) : str :=
  q "{'program_id':'" ++ program_id ++ q "'}".

(** The value [wait] computes from the response. *)
Definition has_success_token (response : str) : bool :=
  match find response success_token with
  | Some _ => true
  | None => false
  end.

Definition all_digits (s : str) : Prop := forallb is_digit s = true.

(** A fraction: nothing, or a point and one or more digits. *)
Definition fraction_shaped (fp : str) : Prop :=
  fp = [] \/ exists c ds, fp = "."%char :: c :: ds /\ all_digits (c :: ds).

(** An exponent: nothing, or e, a sign and one or more digits. *)
Definition exponent_shaped (ep : str) : Prop :=
  ep = [] \/
  exists s c ds, ep = "e"%char :: s :: c :: ds
                 /\ (s = "+"%char \/ s = "-"%char) /\ all_digits (c :: ds).

(** The encoding of a value as the specification claims it: numbers bare
    and JSON numbers, strings quoted and escaped, booleans as words,
    sequences as arrays of numbers separated by commas. *)
Definition value_as_claimed (v : TypedValue) (text : str) : Prop :=
  match v with
  | Integer z => text = ostream_int z /\ is_json_number text = true
  | Double d => text = ostream_double d /\ is_json_number text = true
  | String_ s =>
      exists body, text = q "'" ++ body ++ q "'"
                   /\ json_string_decode body = Some s
  | Boolean t => text = if t then q "true" else q "false"
  | IntegerSequence l =>
      text = q "[" ++ join (q ",") (map ostream_int l) ++ q "]"
      /\ Forall (fun z => is_json_number (ostream_int z) = true) l
  | DoubleSequence l =>
      text = q "[" ++ join (q ",") (map ostream_double l) ++ q "]"
      /\ Forall (fun d => is_json_number (ostream_double d) = true) l
  end.

(** The text of a [double] on the wire: a JSON number when the value is
    finite, one of the words inf, -inf, nan, -nan when it is not. *)
Definition double_on_wire (d : double) (text : str) : Prop :=
  text = ostream_double d
  /\ if is_finite d then is_json_number text = true
     else In text [q "inf"; q "-inf"; q "nan"; q "-nan"].

(** The encoding of a value as the methods write it. *)
Definition value_on_wire (v : TypedValue) (text : str) : Prop :=
  match v with
  | Double d => double_on_wire d text
  | DoubleSequence l =>
      text = q "[" ++ join (q ",") (map ostream_double l) ++ q "]"
      /\ Forall (fun d => double_on_wire d (ostream_double d)) l
  | _ => value_as_claimed v text
  end.

(** Every entry of the registry was stored by an [add]. *)
Definition typed_entry (var : var_entry) : Prop := exists v, snd var = stored v.

(** The whole number a [double] holds, when it holds one: a zero, or
    [m * 2^e] with [0 <= e], or with [e < 0] and [m] a multiple of
    [2^(-e)]. *)
Definition whole_value (d : double) : option Z :=
  match d with
  | Dzero _ => Some 0%Z
  | Dfinite neg m e =>
      let signed (z : Z) := if neg then (- z)%Z else z in
      if (0 <=? e)%Z then Some (signed (Z.pos m * 2 ^ e)%Z)
      else if (Z.pos m mod 2 ^ (- e) =? 0)%Z
           then Some (signed (Z.pos m / 2 ^ (- e))%Z)
           else None
  | Dinf _ | Dnan _ => None
  end.

Definition is_negative_zero (d : double) : bool :=
  match d with
  | Dzero true => true
  | _ => false
  end.

(** ** Sample clients and answers of the outside, for the examples *)

Definition sample_client : Barrier := mkBarrier (q "program1") 3 true [].


(** A program identifier with quotes in it. *)
Definition quoted_program_id : str := q "x','program_id':'evil".

(** The outside during one [wait]: what [send] returns and what [recv]
    finds. *)
Definition answers (send_ret : Z) (reply : option str) : world :=
  mkWorld None 0 0 send_ret reply (q "Connection reset by peer").

Definition reply_with_nul : str := q "{'note':'" ++ NUL :: q "','status':'success'}".

(** ** Traces, plain characters *)

(** The descriptors closed by a sequence of events, in order. *)
Definition closed_fds (evs : list event) : list Z :=
  flat_map (fun e => match e with Close fd => [fd] | _ => [] end) evs.

(** The messages offered to [send] by a sequence of events, in order. *)
Definition sent (evs : list event) : list str :=
  flat_map (fun e => match e with Send _ data => [data] | _ => [] end) evs.

Definition is_cerr (e : event) : bool :=
  match e with Cerr _ => true | _ => false end.

(** The kinds of event [wait] can cause. *)
Definition wait_event (e : event) : bool :=
  match e with Send _ _ | Recv _ _ | Cerr _ => true | _ => false end.

(** A character [escape_json_string] passes through: not a control
    character, not the quote, not the backslash. *)
Definition plain_char (c : ascii) : bool :=
  (N.leb 32 (N_of_ascii c) && negb (Ascii.eqb c DQ)
   && negb (Ascii.eqb c BACKSLASH))%bool.

(** In escaped text a quote comes only right after a backslash that is not
    itself escaped: [after_backslash] tells whether the character before
    was such a backslash. *)
Fixpoint quotes_escaped (after_backslash : bool) (s : str) : bool :=
  match s with
  | [] => negb after_backslash
  | c :: s' =>
      if after_backslash then quotes_escaped false s'
      else if Ascii.eqb c BACKSLASH then quotes_escaped true s'
      else negb (Ascii.eqb c DQ) && quotes_escaped false s'
  end.

(** A call with what it does to the outside, and a sequence of calls with
    the events of all of them. *)
Definition call_trace (b : Barrier) (c : call) : Barrier * list event :=
  match c with
  | CallAdd name v => (add name v b, [])
  | CallWait w barrier_id =>
      (snd (fst (wait w barrier_id b)), snd (wait w barrier_id b))
  end.

Fixpoint run_trace (cs : list call) (b : Barrier) : Barrier * list event :=
  match cs with
  | [] => (b, [])
  | c :: cs' =>
      let '(b1, ev1) := call_trace b c in
      let '(b2, ev2) := run_trace cs' b1 in
      (b2, ev1 ++ ev2)
  end.

(** ** Reading numbers back (reference, not code of the repository) *)

(** The [int] a decimal text denotes. *)
Definition read_int (text : str) : option Z :=
  option_map Z.of_int
    (DecimalString.NilZero.int_of_string (string_of_list_ascii text)).

(** The pieces of a text between the separators. *)
Fixpoint split_on (sep : ascii) (s : str) : list str :=
  match s with
  | [] => [[]]
  | c :: s' =>
      if Ascii.eqb c sep then [] :: split_on sep s'
      else match split_on sep s' with
           | h :: t => (c :: h) :: t
           | [] => [[c]]
           end
  end.

Fixpoint read_all (texts : list str) : option (list Z) :=
  match texts with
  | [] => Some []
  | t :: ts =>
      match read_int t, read_all ts with
      | Some z, Some zs => Some (z :: zs)
      | _, _ => None
      end
  end.

(** The sequence a JSON array of integers without white space denotes. *)
Definition read_int_array (text : str) : option (list Z) :=
  match text with
  | c :: rest =>
      if Ascii.eqb c "[" then
        match List.rev rest with
        | c' :: body_rev =>
            if Ascii.eqb c' "]" then
              match List.rev body_rev with
              | [] => Some []
              | body => read_all (split_on "," body)
              end
            else None
        | [] => None
        end
      else None
  | [] => None
  end.

(** ** The example program (src/examples/example.cpp) *)

(** The arithmetic of [double] the example uses, left open: products, sums,
    differences, quotients, [std::sqrt], the comparisons [<] and [==], and
    the conversion to [int] that building a [std::vector<int>] from doubles
    applies to each element. *)
Record double_ops : Type := mkDoubleOps {
  fmul : double -> double -> double;
  fadd : double -> double -> double;
  fsub : double -> double -> double;
  fdiv : double -> double -> double;
  fsqrt : double -> double;
  flt : double -> double -> bool;
  feq : double -> double -> bool;
  int_of_double : double -> Z
}.

(** Unary minus flips the sign bit. *)
Definition double_neg (d : double) : double :=
  match d with
  | Dzero neg => Dzero (negb neg)
  | Dinf neg => Dinf (negb neg)
  | Dnan neg => Dnan (negb neg)
  | Dfinite neg m e => Dfinite (negb neg) m e
  end.

(** The [int] constants 0, 2 and 4 converted to [double]. *)
Definition double_0 : double := Dzero false.
Definition double_2 : double := Dfinite false 1 1.
Definition double_4 : double := Dfinite false 1 2.

(** What follows a [barrier.wait(...)] whose result is dropped: were the
    call to throw, the stack would unwind through the destructor of
    [barrier]; otherwise the rest [k] of the function runs. *)
Definition after_wait {A : Type} (r : (exn + bool) * Barrier * list event)
  (k : Barrier -> (exn + A) * list event) : (exn + A) * list event :=
  match r with
  | (inl e, barrier, ev) => (inl e, ev ++ snd (Barrier_delete barrier))
  | (inr _, barrier, ev) =>
      let '(res, ev') := k barrier in (res, ev ++ ev')
  end.

(** [return result;] with [barrier] in scope: its destructor runs. *)
Definition leave {A : Type} (barrier : Barrier) (result : A)
  : (exn + A) * list event :=
  (inr result, snd (Barrier_delete barrier)).

(** [solve_quadratic(a, b, c)]: the exception thrown or the solutions
    returned, and what the call did.  [w0] answers during the construction
    of [barrier], [w1], [w2] and [w3] during the waits at init,
    check_discriminant and final. *)
Definition solve_quadratic (ops : double_ops) (w0 w1 w2 w3 : world)
  (uninit : Z) (a b c : double) : (exn + list double) * list event :=
  let discriminant :=
    fsub ops (fmul ops b b) (fmul ops (fmul ops double_4 a) c) in
  match Barrier_new w0 uninit (q "program1") with
  | (inl e, ev0) => (inl e, ev0)
  | (inr barrier, ev0) =>
      let barrier := add_double (q "a") a barrier in
      let barrier := add_double (q "b") b barrier in
      let barrier := add_double (q "c") c barrier in
      let barrier := add_double (q "discriminant") discriminant barrier in
      let '(res, ev) :=
        after_wait (wait w1 (q "init") barrier) (fun barrier =>
          if flt ops discriminant double_0 then
            let barrier := add_bool (q "has_solutions") false barrier in
            let barrier := add_int (q "num_solutions") 0 barrier in
            after_wait (wait w2 (q "check_discriminant") barrier)
              (fun barrier => leave barrier [])
          else
            let '(solutions, checked) :=
              if feq ops discriminant double_0 then
                let x := fdiv ops (double_neg b) (fmul ops double_2 a) in
                let barrier := add_bool (q "has_solutions") true barrier in
                let barrier := add_int (q "num_solutions") 1 barrier in
                let barrier := add_double (q "x1") x barrier in
                ([x], wait w2 (q "check_discriminant") barrier)
              else
                let sqrt_discriminant := fsqrt ops discriminant in
                let x1 := fdiv ops (fadd ops (double_neg b) sqrt_discriminant)
                            (fmul ops double_2 a) in
                let x2 := fdiv ops (fsub ops (double_neg b) sqrt_discriminant)
                            (fmul ops double_2 a) in
                let barrier := add_bool (q "has_solutions") true barrier in
                let barrier := add_int (q "num_solutions") 2 barrier in
                let barrier :=
                  add_double (q "sqrt_discriminant") sqrt_discriminant barrier in
                let barrier := add_double (q "x1") x1 barrier in
                let barrier := add_double (q "x2") x2 barrier in
                ([x1; x2], wait w2 (q "check_discriminant") barrier)
            in
            after_wait checked (fun barrier =>
              let barrier :=
                add_int_vector (q "solutions")
                  (map (int_of_double ops) solutions) barrier in
              let barrier :=
                add_int (q "solutions_count") (Z.of_nat (length solutions))
                  barrier in
              after_wait (wait w3 (q "final") barrier)
                (fun barrier => leave barrier solutions)))
      in (res, ev0 ++ ev)
  end.

(** The request of a client that holds just the given variables. *)
Definition request (barrier_id : str) (vars : list (str * TypedValue)) : str :=
  make_barrier_json barrier_id
    (fold_left (fun b nv => add (fst nv) (snd nv) b) vars
       (mkBarrier [] 0 true [])).

(** The variables the example registers for check_discriminant, by the
    solutions it found. *)
Definition check_variables (sqrt_discriminant : double) (solutions : list double)
  : list (str * TypedValue) :=
  match solutions with
  | [] => [(q "has_solutions", Boolean false); (q "num_solutions", Integer 0)]
  | [x] =>
      [(q "has_solutions", Boolean true); (q "num_solutions", Integer 1);
       (q "x1", Double x)]
  | x1 :: x2 :: _ =>
      [(q "has_solutions", Boolean true); (q "num_solutions", Integer 2);
       (q "sqrt_discriminant", Double sqrt_discriminant);
       (q "x1", Double x1); (q "x2", Double x2)]
  end.

(** The outside accepts the send of a [wait] and has a reply waiting. *)
Definition gets_reply (w : world) : bool :=
  (negb (send_result w =? -1)%Z
   && match recv_data w with Some (_ :: _) => true | _ => false end)%bool.

(** An arithmetic for the examples: every discriminant counts as zero. *)
Definition sample_ops : double_ops :=
  mkDoubleOps (fun x _ => x) (fun x _ => x) (fun x _ => x) (fun x _ => x)
    (fun x => x) (fun _ _ => false) (fun _ _ => true) (fun _ => 0%Z).

(** An outside on which construction succeeds with descriptor 3. *)
Definition friendly_world : world :=
  mkWorld (Some (q "/tmp/codetango.sock")) 3 0 0
    (Some (q "{'status':'success'}")) [].

(** * Theorems *)

(** ** Order of strings *)

Lemma ascii_compare_refl (a : ascii) : Ascii.compare a a = Eq.
Proof. unfold Ascii.compare. apply N.compare_refl. Qed.

Lemma ascii_compare_eq (a b : ascii) : Ascii.compare a b = Eq <-> a = b.
Proof.
  split.
  - apply Ascii.compare_eq_iff.
  - intros ->. apply ascii_compare_refl.
Qed.

Lemma ascii_compare_lt_trans (a b c : ascii) :
  Ascii.compare a b = Lt -> Ascii.compare b c = Lt -> Ascii.compare a c = Lt.
Proof.
  unfold Ascii.compare. rewrite !N.compare_lt_iff. apply N.lt_trans.
Qed.

Lemma str_compare_refl (a : str) : str_compare a a = Eq.
Proof.
  induction a as [|x a IH]; simpl; [reflexivity|].
  now rewrite ascii_compare_refl.
Qed.

Lemma str_compare_eq (a b : str) : str_compare a b = Eq <-> a = b.
Proof.
  split.
  - revert b. induction a as [|x a IH]; intros [|y b]; simpl; try discriminate.
    + reflexivity.
    + destruct (Ascii.compare x y) eqn:E; try discriminate.
      intros H. apply ascii_compare_eq in E. subst. f_equal. now apply IH.
  - intros ->. apply str_compare_refl.
Qed.

Lemma str_eqb_eq (a b : str) : str_eqb a b = true <-> a = b.
Proof.
  unfold str_eqb. rewrite <- str_compare_eq.
  destruct (str_compare a b); split; congruence.
Qed.

Lemma str_eqb_refl (a : str) : str_eqb a a = true.
Proof. now apply str_eqb_eq. Qed.

Lemma str_eqb_neq (a b : str) : str_eqb a b = false <-> a <> b.
Proof.
  rewrite <- str_eqb_eq. destruct (str_eqb a b); split; congruence.
Qed.

Lemma str_lt_irrefl (a : str) : ~ str_lt a a.
Proof. unfold str_lt. rewrite str_compare_refl. discriminate. Qed.

Lemma str_lt_trans (a b c : str) : str_lt a b -> str_lt b c -> str_lt a c.
Proof.
  unfold str_lt. revert b c.
  induction a as [|x a IH]; intros [|y b] [|z c]; simpl; try discriminate; auto.
  destruct (Ascii.compare x y) eqn:Exy; try discriminate;
    destruct (Ascii.compare y z) eqn:Eyz; try discriminate; intros H1 H2.
  - apply ascii_compare_eq in Exy, Eyz. subst.
    rewrite ascii_compare_refl. eauto.
  - apply ascii_compare_eq in Exy. subst. now rewrite Eyz.
  - apply ascii_compare_eq in Eyz. subst. now rewrite Exy.
  - now rewrite (ascii_compare_lt_trans _ _ _ Exy Eyz).
Qed.

Lemma str_compare_antisym (a b : str) :
  str_compare b a = CompOpp (str_compare a b).
Proof.
  revert b. induction a as [|x a IH]; intros [|y b]; simpl; try reflexivity.
  rewrite (Ascii.compare_antisym y x).
  destruct (Ascii.compare x y); simpl; auto.
Qed.

Lemma str_compare_gt_lt (a b : str) : str_compare a b = Gt -> str_lt b a.
Proof.
  unfold str_lt. intros H. now rewrite str_compare_antisym, H.
Qed.

(** ** The variable map *)

Section VarMap.

Implicit Types (k : str) (v : str * str) (m : var_map).

Lemma map_find_assign k v m other :
  map_find other (map_assign k v m) =
  if str_eqb other k then Some v else map_find other m.
Proof.
  induction m as [|[k' v'] m IH]; simpl.
  - reflexivity.
  - destruct (str_compare k k') eqn:E; simpl.
    + apply str_compare_eq in E. subst k'.
      destruct (str_eqb other k); reflexivity.
    + destruct (str_eqb other k) eqn:Eo; [reflexivity|].
      reflexivity.
    + rewrite IH.
      destruct (str_eqb other k') eqn:Eo'; [|reflexivity].
      apply str_eqb_eq in Eo'. subst k'.
      unfold str_eqb. now rewrite str_compare_antisym, E.
Qed.

Lemma map_assign_others k v m :
  filter (fun e => negb (str_eqb (fst e) k)) (map_assign k v m) =
  filter (fun e => negb (str_eqb (fst e) k)) m.
Proof.
  induction m as [|[k' v'] m IH]; simpl.
  - now rewrite str_eqb_refl.
  - destruct (str_compare k k') eqn:E; simpl.
    + apply str_compare_eq in E. subst k'. now rewrite str_eqb_refl.
    + now rewrite str_eqb_refl.
    + now rewrite IH.
Qed.

Lemma map_assign_head_bound k0 k v m :
  HdRel str_lt k0 (keys m) -> str_lt k0 k ->
  HdRel str_lt k0 (keys (map_assign k v m)).
Proof.
  destruct m as [|[k' v'] m]; simpl; intros Hhd Hlt.
  - now constructor.
  - destruct (str_compare k k'); simpl; constructor; auto;
      now inversion Hhd.
Qed.

Lemma map_assign_sorted k v m :
  Sorted str_lt (keys m) -> Sorted str_lt (keys (map_assign k v m)).
Proof.
  induction m as [|[k' v'] m IH]; simpl; intros Hs.
  - repeat constructor.
  - inversion Hs as [|? ? Hs' Hhd]; subst.
    destruct (str_compare k k') eqn:E; simpl.
    + now constructor.
    + constructor; [exact Hs|]. now constructor.
    + constructor; [now apply IH|].
      apply map_assign_head_bound; [exact Hhd|].
      now apply str_compare_gt_lt.
Qed.

Lemma sorted_keys_strongly m :
  Sorted str_lt (keys m) -> StronglySorted str_lt (keys m).
Proof.
  apply Sorted_StronglySorted. intros a b c. apply str_lt_trans.
Qed.

Lemma strongly_sorted_nodup (l : list str) :
  StronglySorted str_lt l -> NoDup l.
Proof.
  induction 1 as [|a l Hs IH Hall]; constructor; auto.
  intros Hin. rewrite Forall_forall in Hall.
  exact (str_lt_irrefl a (Hall a Hin)).
Qed.

End VarMap.

(** ** The [add_...] methods *)

Lemma vector_loop_join {A : Type} (put : A -> str) (values : list A) :
  forall i ss,
    vector_loop put i values ss =
    ss ++ (match values with
           | [] => []
           | _ :: _ => if (0 <? i)%nat then q "," else []
           end) ++ join (q ",") (map put values).
Proof.
  induction values as [|v values IH]; intros i ss; simpl vector_loop.
  - simpl. now rewrite app_nil_r.
  - rewrite IH. destruct values as [|v' values].
    + simpl. destruct (0 <? i)%nat; now rewrite <- ?app_assoc, ?app_nil_r.
    + change (0 <? S i)%nat with true. cbv iota.
      change (join (q ",") (map put (v :: v' :: values)))
        with (put v ++ q "," ++ join (q ",") (map put (v' :: values))).
      destruct (0 <? i)%nat; now rewrite <- ?app_assoc.
Qed.

Lemma vector_text {A : Type} (put : A -> str) (values : list A) :
  vector_loop put 0 values (q "[") ++ q "]" =
  q "[" ++ join (q ",") (map put values) ++ q "]".
Proof.
  rewrite vector_loop_join. change (0 <? 0)%nat with false.
  destruct values; simpl; now rewrite <- ?app_assoc.
Qed.

Lemma add_stores (name : str) (v : TypedValue) (b : Barrier) :
  add name v b = set_variables (map_assign name (stored v) (variables_ b)) b.
Proof.
  destruct v; unfold add, stored; simpl tag_of; cbv iota; try reflexivity.
  - unfold add_int_vector. now rewrite vector_text.
  - unfold add_double_vector. now rewrite vector_text.
Qed.

(** C9. Each typed add (integer, double, string, boolean, integer sequence,
    double sequence) writes the entry of the given name and nothing else:
    looking up the name afterwards gives the value just added (so the last
    write for a name wins), looking up any other name gives what it gave
    before, the entries under other names are the same entries in the same
    order, and the program identifier, the connection handle and the
    connected flag are unchanged. *)
Theorem add_changes_only_its_entry :
  forall (name : str) (v : TypedValue) (b : Barrier),
    (forall other : str,
        map_find other (variables_ (add name v b)) =
        if str_eqb other name then Some (stored v)
        else map_find other (variables_ b))
    /\ filter (fun e => negb (str_eqb (fst e) name)) (variables_ (add name v b))
       = filter (fun e => negb (str_eqb (fst e) name)) (variables_ b)
    /\ (forall v' : TypedValue,
           map_find name (variables_ (add name v' (add name v b))) =
           Some (stored v'))
    /\ program_id_ (add name v b) = program_id_ b
    /\ socket_fd_ (add name v b) = socket_fd_ b
    /\ connected_ (add name v b) = connected_ b.
Proof.
  intros name v b. rewrite !add_stores. simpl. repeat split.
  - intros other. apply map_find_assign.
  - apply map_assign_others.
  - intros v'. rewrite add_stores. simpl.
    now rewrite map_find_assign, str_eqb_refl.
Qed.

(** ** The barrier request *)

Lemma member_text_eq (var : var_entry) :
  member_text var =
  q "'" ++ escape_json_string (fst var) ++ q "':"
    ++ (if str_eqb (fst (snd var)) (q "string")
        then q "'" ++ escape_json_string (snd (snd var)) ++ q "'"
        else snd (snd var)).
Proof. reflexivity. Qed.

Lemma barrier_json_loop (m : var_map) :
  forall ss first,
    fst (fold_left barrier_json_step m (ss, first)) =
    ss ++ (match m with
           | [] => []
           | _ :: _ => if first then [] else q ","
           end) ++ join (q ",") (map member_text m).
Proof.
  induction m as [|var m IH]; intros ss first.
  - simpl. now rewrite app_nil_r.
  - change (fold_left barrier_json_step (var :: m) (ss, first))
      with (fold_left barrier_json_step m (barrier_json_step (ss, first) var)).
    unfold barrier_json_step at 2. cbv beta iota zeta.
    rewrite IH.
    destruct m as [|var' m].
    + simpl join. rewrite (member_text_eq var).
      destruct first; simpl negb; cbv iota;
        now rewrite <- ?app_assoc, ?app_nil_r.
    + change (join (q ",") (map member_text (var :: var' :: m)))
        with (member_text var ++ q ","
                ++ join (q ",") (map member_text (var' :: m))).
      rewrite (member_text_eq var).
      destruct first; simpl negb; cbv iota; now rewrite <- ?app_assoc.
Qed.

Lemma make_barrier_json_members (barrier_id : str) (b : Barrier) :
  make_barrier_json barrier_id b =
  q "{'barrier_id':'" ++ barrier_id ++ q "','variables':{"
    ++ join (q ",") (map member_text (variables_ b)) ++ q "}}".
Proof.
  unfold make_barrier_json.
  pose proof (barrier_json_loop (variables_ b)
                ((q "{" ++ q "'barrier_id':'" ++ barrier_id ++ q "',")
                   ++ q "'variables':{") true) as H.
  destruct (fold_left barrier_json_step (variables_ b) _) as [ss fl].
  simpl fst in H. rewrite H.
  replace (match variables_ b with [] => [] | _ :: _ => [] end)
    with (@nil ascii) by now destruct (variables_ b).
  rewrite <- !app_assoc. reflexivity.
Qed.

(** ** Calls keep the entries sorted by name *)

Lemma wait_variables (w : world) (barrier_id : str) (b : Barrier) :
  variables_ (snd (fst (wait w barrier_id b))) = variables_ b
  \/ variables_ (snd (fst (wait w barrier_id b))) = [].
Proof.
  unfold wait.
  destruct (negb (connected_ b)); [now left|].
  destruct (send_result w =? -1)%Z; [now left|].
  destruct (recv w (4096 - 1)) as [received buffer].
  destruct (received <=? 0)%Z; [now left|now right].
Qed.

Lemma do_call_sorted (b : Barrier) (c : call) :
  Sorted str_lt (keys (variables_ b)) ->
  Sorted str_lt (keys (variables_ (do_call b c))).
Proof.
  intros Hs. destruct c as [name v|w barrier_id]; simpl.
  - rewrite add_stores. simpl. now apply map_assign_sorted.
  - destruct (wait_variables w barrier_id b) as [-> | ->];
      [exact Hs|constructor].
Qed.

Lemma run_sorted (cs : list call) :
  forall b, Sorted str_lt (keys (variables_ b)) ->
            Sorted str_lt (keys (variables_ (run cs b))).
Proof.
  induction cs as [|c cs IH]; intros b Hs; simpl; auto.
  apply IH. now apply do_call_sorted.
Qed.

(** C8. The registry is ordered by name.  After any sequence of adds and
    waits on a client that started with no variables, the names of the
    entries are in strictly increasing order of [std::string] (bytewise
    lexicographic), none occurs twice, and the variables object of the
    barrier request lists the entries in exactly that order. *)
Theorem request_names_strictly_increasing :
  forall (cs : list call) (pid : str) (fd : Z) (conn : bool) (barrier_id : str),
    let b := run cs (mkBarrier pid fd conn []) in
    StronglySorted str_lt (keys (variables_ b))
    /\ NoDup (keys (variables_ b))
    /\ make_barrier_json barrier_id b =
       q "{'barrier_id':'" ++ barrier_id ++ q "','variables':{"
         ++ join (q ",")
              (map (fun var =>
                      q "'" ++ escape_json_string (fst var) ++ q "':"
                        ++ value_text var)
                 (variables_ b))
         ++ q "}}".
Proof.
  intros cs pid fd conn barrier_id b.
  assert (Hs : StronglySorted str_lt (keys (variables_ b))).
  { apply sorted_keys_strongly. apply run_sorted. simpl. constructor. }
  repeat split.
  - exact Hs.
  - now apply strongly_sorted_nodup.
  - apply make_barrier_json_members.
Qed.

(** The order is that of the names, not of their escaped text: a line feed
    sorts before A, its escape (a backslash and n) after it. *)
Lemma escaped_names_may_swap :
  str_lt [NEWLINE] (q "A")
  /\ str_lt (escape_json_string (q "A")) (escape_json_string [NEWLINE]).
Proof. split; reflexivity. Qed.

(** ** Escaping *)

Lemma escape_json_string_fold (s : str) :
  forall ss, fold_left (fun ss c => ss ++ escape_json_char c) s ss =
             ss ++ flat_map escape_json_char s.
Proof.
  induction s as [|c s IH]; intros ss; simpl.
  - now rewrite app_nil_r.
  - now rewrite IH, app_assoc.
Qed.

Lemma escape_json_string_cons (c : ascii) (s : str) :
  escape_json_string (c :: s) = escape_json_char c ++ escape_json_string s.
Proof.
  unfold escape_json_string. now rewrite !escape_json_string_fold.
Qed.

Lemma decode_escaped_char (c : ascii) (rest : str) :
  json_string_decode (escape_json_char c ++ rest) =
  option_map (cons c) (json_string_decode rest).
Proof.
  destruct c as [[] [] [] [] [] [] [] []]; reflexivity.
Qed.

Lemma decode_escaped_string (s : str) :
  json_string_decode (escape_json_string s) = Some s.
Proof.
  induction s as [|c s IH].
  - reflexivity.
  - now rewrite escape_json_string_cons, decode_escaped_char, IH.
Qed.

(** C5. Escaping round-trips: for every string -- whatever quotes,
    backslashes and control characters 0x00-0x1F it contains -- decoding the
    output of [escape_json_string] as the inside of a JSON string gives back
    exactly the string. *)
Theorem escape_json_string_roundtrip :
  forall s : str, json_string_decode (escape_json_string s) = Some s.
Proof. exact decode_escaped_string. Qed.

(** ** Construction *)

Lemma Barrier_new_cases (w : world) (uninit : Z) (pid : str) :
  match getenv_CODETANGO_SOCKET w with
  | None =>
      exists e, Barrier_new w uninit pid = (inl e, [Getenv (q "CODETANGO_SOCKET")])
                /\ error_kind_of e = Some ConfigurationError
  | Some path =>
      if ((socket_result w =? -1) || (connect_result w =? -1)
          || (send_result w =? -1))%Z
      then exists e, fst (Barrier_new w uninit pid) = inl e
                     /\ error_kind_of e = Some ConnectionError
      else Barrier_new w uninit pid =
           (inr (mkBarrier pid (socket_result w) true []),
            [Getenv (q "CODETANGO_SOCKET"); Socket;
             Connect (socket_result w) (firstn 107 path);
             Send (socket_result w) (handshake pid)])
  end.
Proof.
  unfold Barrier_new, connect.
  destruct (getenv_CODETANGO_SOCKET w) as [path|].
  - cbn [set_socket_fd socket_fd_ program_id_ connected_ variables_
           set_connected].
    destruct (socket_result w =? -1)%Z; cbn [orb fst].
    { eexists. split; reflexivity. }
    destruct (connect_result w =? -1)%Z; cbn [orb fst].
    { eexists. split; reflexivity. }
    destruct (send_result w =? -1)%Z; cbn [orb fst].
    { eexists. split; reflexivity. }
    reflexivity.
  - eexists. split; reflexivity.
Qed.

(** The outcomes of construction.  It fails with a ConfigurationError
    exactly when the environment gives no coordinator address, fails with a
    ConnectionError exactly when the address is there and creating the
    socket, connecting or sending the handshake fails, and otherwise makes
    the calls getenv, socket, connect and one send of the text
    {"program_id":"<identifier>"}, the identifier put between the quotes as
    it is, and leaves the client connected (with no variables). *)
Theorem construction_outcomes :
  forall (w : world) (uninit : Z) (pid : str),
    let r := Barrier_new w uninit pid in
    ((exists e, fst r = inl e /\ error_kind_of e = Some ConfigurationError)
     <-> getenv_CODETANGO_SOCKET w = None)
    /\ ((exists e, fst r = inl e /\ error_kind_of e = Some ConnectionError)
        <-> getenv_CODETANGO_SOCKET w <> None
            /\ (socket_result w = (-1)%Z \/ connect_result w = (-1)%Z
                \/ send_result w = (-1)%Z))
    /\ ((exists b path,
            r = (inr b,
                 [Getenv (q "CODETANGO_SOCKET"); Socket;
                  Connect (socket_fd_ b) (firstn 107 path);
                  Send (socket_fd_ b)
                    (q "{'program_id':'" ++ pid ++ q "'}")])
            /\ getenv_CODETANGO_SOCKET w = Some path
            /\ connected_ b = true /\ program_id_ b = pid
            /\ variables_ b = [])
        <-> getenv_CODETANGO_SOCKET w <> None
            /\ socket_result w <> (-1)%Z /\ connect_result w <> (-1)%Z
            /\ send_result w <> (-1)%Z).
Proof.
  intros w uninit pid r. subst r.
  pose proof (Barrier_new_cases w uninit pid) as H.
  destruct (getenv_CODETANGO_SOCKET w) as [path|].
  - destruct (((socket_result w =? -1) || (connect_result w =? -1)
               || (send_result w =? -1))%Z) eqn:E.
    + destruct H as (e & He & Hk). rewrite !orb_true_iff, !Z.eqb_eq in E.
      split; [|split]; split.
      * intros (e' & He' & Hk'). congruence.
      * discriminate.
      * intros _. split; [discriminate|tauto].
      * intros _. exists e. now split.
      * intros (b & p & Hb & _). rewrite Hb in He. discriminate.
      * intros (_ & ? & ? & ?). tauto.
    + rewrite !orb_false_iff, !Z.eqb_neq in E. rewrite H.
      split; [|split]; split.
      * intros (e & He & _). discriminate.
      * discriminate.
      * intros (e & He & _). discriminate.
      * intros (_ & ?). tauto.
      * intros _. split; [discriminate|tauto].
      * intros _. exists (mkBarrier pid (socket_result w) true []), path.
        repeat split.
  - destruct H as (e & He & Hk). rewrite He.
    split; [|split]; split.
    + reflexivity.
    + intros _. exists e. now split.
    + intros (e' & He' & Hk'). simpl in He'. congruence.
    + intros (Hn & _). congruence.
    + intros (b & p & Hb & _). discriminate.
    + intros (Hn & _). congruence.
Qed.

(** C6. Construction does not always send the handshake object.
    [connect] puts the program identifier between the quotes as it is,
    without the [escape_json_string] that [make_barrier_json] applies to
    names and string values.  With the identifier x","program_id":"evil on
    an outside where every call succeeds, construction returns a connected
    client and the bytes sent are {"program_id":"x","program_id":"evil"}:
    two members, neither holding the identifier.  The identifier is not the
    body of a JSON string; escaped, it is, and decodes to itself -- as the
    same text does when it is registered as a variable name. *)
Theorem handshake_identifier_not_escaped :
  Barrier_new friendly_world 0 quoted_program_id
  = (inr (mkBarrier quoted_program_id 3 true []),
     [Getenv (q "CODETANGO_SOCKET"); Socket;
      Connect 3 (q "/tmp/codetango.sock");
      Send 3 (q "{'program_id':'x','program_id':'evil'}")])
  /\ json_string_decode quoted_program_id = None
  /\ escape_json_string quoted_program_id = q "x\',\'program_id\':\'evil"
  /\ json_string_decode (escape_json_string quoted_program_id)
     = Some quoted_program_id
  /\ make_barrier_json (q "init")
       (add_bool quoted_program_id true sample_client)
     = q "{'barrier_id':'init','variables':{'x\',\'program_id\':\'evil':true}}".
Proof.
  repeat split.
Qed.

(** ** Searching a string *)

Lemma starts_with_firstn (p s : str) :
  starts_with p s = true <-> firstn (length p) s = p.
Proof.
  revert s. induction p as [|x p IH]; intros [|y s]; simpl.
  - tauto.
  - tauto.
  - split; discriminate.
  - rewrite andb_true_iff, IH. split.
    + intros [Hxy Hp]. apply Ascii.eqb_eq in Hxy. now subst; f_equal.
    + intros H. injection H as -> Hp. split; [apply Ascii.eqb_refl|exact Hp].
Qed.

Lemma find_some (hay needle : str) (i : nat) :
  find hay needle = Some i -> occurs_at needle hay i.
Proof.
  unfold occurs_at. revert i. induction hay as [|c hay IH]; intros i; simpl.
  - destruct (starts_with needle []) eqn:E; [|discriminate].
    intros H. injection H as <-. now apply starts_with_firstn.
  - destruct (starts_with needle (c :: hay)) eqn:E.
    + intros H. injection H as <-. now apply starts_with_firstn.
    + destruct (find hay needle) as [j|]; [|discriminate].
      simpl. intros H. injection H as <-. simpl. now apply IH.
Qed.

Lemma find_none (hay needle : str) :
  find hay needle = None -> forall i, ~ occurs_at needle hay i.
Proof.
  unfold occurs_at. induction hay as [|c hay IH]; simpl.
  - destruct (starts_with needle []) eqn:E; [discriminate|].
    intros _ i H. rewrite skipn_nil in H.
    apply starts_with_firstn in H. congruence.
  - destruct (starts_with needle (c :: hay)) eqn:E; [discriminate|].
    destruct (find hay needle) as [j|] eqn:F; [discriminate|].
    intros _ [|i] H.
    + apply starts_with_firstn in H. simpl skipn in H. congruence.
    + simpl skipn in H. exact (IH eq_refl i H).
Qed.

Lemma has_success_token_true (response : str) :
  has_success_token response = true <->
  exists i, occurs_at success_token response i.
Proof.
  unfold has_success_token.
  destruct (find response success_token) as [i|] eqn:F.
  - split; [|reflexivity]. intros _. exists i. now apply find_some.
  - split; [discriminate|]. intros [i Hi]. exfalso.
    exact (find_none _ _ F i Hi).
Qed.

(** ** The buffer of [wait] *)

Lemma c_str_to_string_terminated (bytes rest : list ascii) :
  c_str_to_string (bytes ++ NUL :: rest) = c_str_to_string bytes.
Proof.
  induction bytes as [|c bytes IH]; simpl.
  - reflexivity.
  - destruct (Ascii.eqb c NUL); [reflexivity|now rewrite IH].
Qed.

Lemma c_str_to_string_prefix (bytes : list ascii) :
  exists rest, bytes = c_str_to_string bytes ++ rest.
Proof.
  induction bytes as [|c bytes [rest IH]]; simpl.
  - now exists [].
  - destruct (Ascii.eqb c NUL).
    + now exists (c :: bytes).
    + exists rest. simpl. now rewrite <- IH.
Qed.

Lemma c_str_to_string_no_nul (bytes : list ascii) :
  ~ In NUL (c_str_to_string bytes).
Proof.
  induction bytes as [|c bytes IH]; simpl; [tauto|].
  destruct (Ascii.eqb c NUL) eqn:E; simpl; [tauto|].
  intros [H|H]; [|tauto]. subst. now rewrite Ascii.eqb_refl in E.
Qed.

Lemma c_str_to_string_id (bytes : list ascii) :
  ~ In NUL bytes -> c_str_to_string bytes = bytes.
Proof.
  induction bytes as [|c bytes IH]; simpl; [reflexivity|].
  intros H. destruct (Ascii.eqb c NUL) eqn:E.
  - apply Ascii.eqb_eq in E. tauto.
  - f_equal. apply IH. tauto.
Qed.

(** ** [wait] *)

(** With the client connected and the send accepted, [wait] returns whether
    the token occurs in the response: the bytes of the reply that fit the
    buffer (4095), up to the first NUL. *)
Lemma wait_result (w : world) (barrier_id : str) (b : Barrier) (reply : str) :
  connected_ b = true -> send_result w <> (-1)%Z -> recv_data w = Some reply ->
  fst (fst (wait w barrier_id b)) =
  inr (has_success_token (c_str_to_string (firstn 4095 reply))).
Proof.
  intros Hc Hs Hr. unfold wait, recv. rewrite Hc, Hr. simpl negb. cbv iota.
  apply Z.eqb_neq in Hs. rewrite Hs.
  change (4096 - 1) with 4095.
  destruct (firstn 4095 reply) as [|c bytes] eqn:E.
  - reflexivity.
  - change (Z.of_nat (length (c :: bytes)) <=? 0)%Z with false. cbv iota.
    cbn [fst]. now rewrite c_str_to_string_terminated.
Qed.

Lemma occurs_at_in_prefix (needle p rest : str) (i : nat) :
  needle <> [] -> occurs_at needle p i ->
  occurs_at needle (p ++ rest) i
  /\ (i + length needle <= length p)%nat
  /\ firstn i (p ++ rest) = firstn i p.
Proof.
  unfold occurs_at. intros Hne H.
  assert (Hlen : (i + length needle <= length p)%nat).
  { pose proof (f_equal (@length ascii) H) as L.
    rewrite length_firstn, length_skipn in L.
    destruct needle; [congruence|]. simpl length in *. lia. }
  repeat split.
  - rewrite skipn_app, firstn_app, length_skipn.
    replace (i - length p)%nat with 0%nat by lia.
    replace (length needle - (length p - i))%nat with 0%nat by lia.
    simpl. now rewrite app_nil_r.
  - exact Hlen.
  - rewrite firstn_app. replace (i - length p)%nat with 0%nat by lia.
    simpl. now rewrite app_nil_r.
Qed.

Lemma success_token_length : length success_token = 18%nat.
Proof. reflexivity. Qed.

Lemma success_token_nonempty : success_token <> [].
Proof. discriminate. Qed.

(** An occurrence of the token that [wait] sees lies within the first 4095
    bytes of the reply and before any NUL. *)
Lemma seen_token_position (reply : str) (i : nat) :
  occurs_at success_token (c_str_to_string (firstn 4095 reply)) i ->
  occurs_at success_token reply i
  /\ (i < 4078)%nat /\ ~ In NUL (firstn i reply).
Proof.
  intros H.
  destruct (c_str_to_string_prefix (firstn 4095 reply)) as [rest1 E1].
  pose proof (firstn_skipn 4095 reply) as E2.
  set (seen := c_str_to_string (firstn 4095 reply)) in *.
  assert (E : reply = seen ++ (rest1 ++ skipn 4095 reply)).
  { rewrite app_assoc, <- E1. now rewrite E2. }
  destruct (occurs_at_in_prefix _ _ (rest1 ++ skipn 4095 reply) i
              success_token_nonempty H) as (Hocc & Hlen & Hfirst).
  rewrite <- E in Hocc, Hfirst.
  rewrite success_token_length in Hlen.
  assert (Hseen : (length seen <= 4095)%nat).
  { pose proof (f_equal (@length ascii) E1) as L.
    rewrite length_app, length_firstn in L. lia. }
  repeat split.
  - exact Hocc.
  - lia.
  - rewrite Hfirst. intros Hin.
    apply (c_str_to_string_no_nul (firstn 4095 reply)).
    fold seen. rewrite <- (firstn_skipn i seen). apply in_or_app. now left.
Qed.




(** The registry after [wait] on a connected client: emptied when a reply
    arrived, untouched when the send or the receive failed or the peer had
    closed the connection. *)
Lemma wait_registry (w : world) (barrier_id : str) (b : Barrier) :
  connected_ b = true ->
  variables_ (snd (fst (wait w barrier_id b))) =
  if (send_result w =? -1)%Z then variables_ b
  else match recv_data w with
       | None | Some [] => variables_ b
       | Some (_ :: _) => []
       end.
Proof.
  intros Hc. unfold wait, recv. rewrite Hc. simpl negb. cbv iota.
  destruct (send_result w =? -1)%Z; [reflexivity|].
  destruct (recv_data w) as [[|c reply]|]; reflexivity.
Qed.

(** C1. [wait] does not always leave the registry empty.  A connected
    client holding the variable x = 1 still holds it after a [wait] that
    returns false because the send failed, and after one that returns false
    because the receive failed or the peer had closed the connection; the
    registry is empty after a [wait] that got a reply, with or without the
    success token. *)
Theorem wait_failure_keeps_registry :
  variables_ (add_int (q "x") 1 sample_client) = [(q "x", (q "int", q "1"))]
  /\ fst (wait (answers (-1) None) (q "init") (add_int (q "x") 1 sample_client))
     = (inr false, add_int (q "x") 1 sample_client)
  /\ fst (wait (answers 0 None) (q "init") (add_int (q "x") 1 sample_client))
     = (inr false, add_int (q "x") 1 sample_client)
  /\ fst (wait (answers 0 (Some [])) (q "init")
            (add_int (q "x") 1 sample_client))
     = (inr false, add_int (q "x") 1 sample_client)
  /\ fst (wait (answers 0 (Some (q "{'status':'failure'}"))) (q "init")
            (add_int (q "x") 1 sample_client))
     = (inr false, sample_client)
  /\ fst (wait (answers 0 (Some (q "{'status':'success'}"))) (q "init")
            (add_int (q "x") 1 sample_client))
     = (inr true, sample_client).
Proof. repeat split. Qed.

(** C3, as stated, fails: a connected client whose send succeeds and whose
    receive returns the 19 bytes NUL, "status":"success" gets false from
    [wait], although the bytes received contain the token (at offset 1). *)
Lemma wait_token_after_nul_counterexample :
  connected_ sample_client = true
  /\ send_result (answers 0 (Some (NUL :: success_token))) <> (-1)%Z
  /\ recv (answers 0 (Some (NUL :: success_token))) 4095
     = (19%Z, NUL :: success_token)
  /\ ~ (fst (fst (wait (answers 0 (Some (NUL :: success_token))) (q "init")
                    sample_client)) = inr true
        <-> exists i, occurs_at success_token (NUL :: success_token) i).
Proof.
  repeat split; try discriminate.
  intros [_ H].
  assert (E : @inr exn bool false = inr true).
  { apply H. exists 1%nat. reflexivity. }
  discriminate E.
Qed.

(** C3, amended.  For a connected client whose send succeeds and whose
    receive returns a positive number of bytes, [wait] returns true if and
    only if the bytes received, cut at their first NUL byte, contain the
    literal token "status":"success", and false otherwise; when the bytes
    received hold no NUL byte, that is: if and only if they contain the
    token. *)
Theorem wait_true_iff_token_before_nul :
  forall (w : world) (barrier_id : str) (b : Barrier),
    connected_ b = true -> send_result w <> (-1)%Z ->
    (0 < fst (recv w 4095))%Z ->
    let received := snd (recv w 4095) in
    let result := fst (fst (wait w barrier_id b)) in
    (result = inr true
     <-> exists i, occurs_at success_token (c_str_to_string received) i)
    /\ (result = inr false
        <-> ~ exists i, occurs_at success_token (c_str_to_string received) i)
    /\ (~ In NUL received ->
        (result = inr true <-> exists i, occurs_at success_token received i)).
Proof.
  intros w barrier_id b Hc Hs Hpos received result.
  subst received result.
  destruct (recv_data w) as [reply|] eqn:Hr;
    [|unfold recv in Hpos; rewrite Hr in Hpos; simpl in Hpos; lia].
  rewrite (wait_result w barrier_id b reply Hc Hs Hr).
  unfold recv. rewrite Hr. cbn [fst snd].
  pose proof (has_success_token_true (c_str_to_string (firstn 4095 reply)))
    as Ht.
  split; [|split].
  - rewrite <- Ht. split; congruence.
  - rewrite <- Ht.
    destruct (has_success_token _); split; congruence.
  - intros Hnul. rewrite (c_str_to_string_id _ Hnul) in *.
    rewrite <- Ht. split; congruence.
Qed.

Lemma wait_true_iff_token_before_nul_witness :
  (connected_ sample_client = true
   /\ send_result (answers 0 (Some (q "{'status':'success','extra':1}")))
      <> (-1)%Z
   /\ (0 < fst (recv (answers 0 (Some (q "{'status':'success','extra':1}")))
                  4095))%Z)
  /\ (fst (fst (wait (answers 0 (Some (q "{'status':'success','extra':1}")))
                  (q "init") sample_client)) = inr true
      <-> exists i,
          occurs_at success_token
            (c_str_to_string
               (snd (recv (answers 0
                             (Some (q "{'status':'success','extra':1}")))
                       4095))) i).
Proof.
  split.
  - repeat split; discriminate.
  - refine (proj1 (wait_true_iff_token_before_nul
                     (answers 0 (Some (q "{'status':'success','extra':1}")))
                     (q "init") sample_client _ _ _));
      [reflexivity | discriminate | reflexivity].
Defined.

(** C10. On a connected client whose send succeeds, [wait] looks at no more
    than the first 4095 bytes that one [recv] delivers and takes them to end
    at their first NUL byte: its result is whether the token occurs in that
    part.  So for every reply in which each occurrence of the token begins
    at byte offset 4078 or later, or after a NUL byte, [wait] returns
    false, whether or not the reply contains the token. *)
Theorem wait_ignores_late_or_hidden_token :
  forall (w : world) (barrier_id : str) (b : Barrier) (reply : str),
    connected_ b = true -> send_result w <> (-1)%Z ->
    recv_data w = Some reply ->
    fst (fst (wait w barrier_id b)) =
    inr (has_success_token (c_str_to_string (firstn 4095 reply)))
    /\ ((forall i, occurs_at success_token reply i ->
                   (4078 <= i)%nat \/ In NUL (firstn i reply)) ->
        fst (fst (wait w barrier_id b)) = inr false).
Proof.
  intros w barrier_id b reply Hc Hs Hr.
  rewrite (wait_result w barrier_id b reply Hc Hs Hr).
  split; [reflexivity|].
  intros Hall.
  destruct (has_success_token _) eqn:E; [|reflexivity].
  apply has_success_token_true in E. destruct E as [i Hi].
  destruct (seen_token_position reply i Hi) as (Hocc & Hlt & Hnul).
  destruct (Hall i Hocc) as [Hge|Hin]; [lia|contradiction].
Qed.

Lemma wait_ignores_late_or_hidden_token_witness :
  (connected_ sample_client = true
   /\ send_result (answers 0 (Some reply_with_nul)) <> (-1)%Z
   /\ recv_data (answers 0 (Some reply_with_nul)) = Some reply_with_nul
   /\ occurs_at success_token reply_with_nul 12)
  /\ fst (fst (wait (answers 0 (Some reply_with_nul)) (q "init")
                 sample_client)) = inr false.
Proof.
  split.
  - repeat split; discriminate.
  - refine (proj2 (wait_ignores_late_or_hidden_token
                     (answers 0 (Some reply_with_nul)) (q "init")
                     sample_client reply_with_nul _ _ _) _);
      [reflexivity | discriminate | reflexivity |].
    intros i Hi. right.
    do 10 (destruct i as [|i]; [discriminate Hi|]).
    simpl. tauto.
Defined.

(** The bound 4078 is exact: a token that begins at offset 4077 ends with
    the 4095th byte and is seen, one that begins at offset 4078 is not. *)
Lemma wait_token_at_buffer_end :
  fst (fst (wait (answers 0 (Some (repeat " "%char 4077 ++ success_token)))
              (q "init") sample_client)) = inr true
  /\ fst (fst (wait (answers 0 (Some (repeat " "%char 4078 ++ success_token)))
                 (q "init") sample_client)) = inr false.
Proof. split; vm_compute; reflexivity. Qed.

(** A client registers x = 1, y = 2.5 and ok = true and waits at
    checkpoint1; the coordinator answers with the success status. *)
Lemma wait_checkpoint_scenario :
  wait (answers 0 (Some (q "{'status':'success'}"))) (q "checkpoint1")
    (run [CallAdd (q "x") (Integer 1);
          CallAdd (q "y") (Double (Dfinite false 5 (-1)));
          CallAdd (q "ok") (Boolean true)] sample_client)
  = (inr true, sample_client,
     [Send 3 (q "{'barrier_id':'checkpoint1','variables':{'ok':true,'x':1,'y':2.5}}");
      Recv 3 4095]).
Proof. reflexivity. Qed.

(** ** Teardown *)

(** C7, as stated, fails: the destructor applied a second time to a connected
    client closes the descriptor a second time. *)
Lemma teardown_twice_closes_twice :
  snd (Barrier_delete sample_client) = [Close 3]
  /\ snd (Barrier_delete (fst (Barrier_delete sample_client))) = [Close 3]
  /\ ~ (snd (Barrier_delete (fst (Barrier_delete sample_client))) = []).
Proof. repeat split. discriminate. Qed.

(** C7, amended.  One teardown closes the connection exactly once when the
    connected flag is set and closes nothing when it is not; it makes no
    other call and changes no field, the connected flag included. *)
Theorem teardown_closes_once :
  forall b : Barrier,
    Barrier_delete b =
    (b, if connected_ b then [Close (socket_fd_ b)] else [])
    /\ connected_ (fst (Barrier_delete b)) = connected_ b.
Proof.
  intros b. unfold Barrier_delete. destruct (connected_ b) eqn:E; auto.
Qed.

(** ** Numbers on the wire *)

Lemma is_digit_digit_char (d : digits) : is_digit (digit_char d) = true.
Proof. destruct d; reflexivity. Qed.

Lemma digit_char_nonzero (d : digits) :
  d <> d0 -> Ascii.eqb (digit_char d) "0" = false.
Proof. destruct d; intros H; try reflexivity. congruence. Qed.

Lemma all_digits_map (l : list digits) : all_digits (map digit_char l).
Proof.
  unfold all_digits. induction l as [|d l IH]; simpl; [reflexivity|].
  now rewrite is_digit_digit_char.
Qed.

Lemma all_digits_app (a b : str) :
  all_digits a -> all_digits b -> all_digits (a ++ b).
Proof.
  unfold all_digits. intros Ha Hb. now rewrite forallb_app, Ha, Hb.
Qed.

Lemma all_digits_repeat_zero (n : nat) : all_digits (repeat "0"%char n).
Proof.
  unfold all_digits. induction n as [|n IH]; simpl; [reflexivity|exact IH].
Qed.

Lemma skip_digits_app (ds rest : str) :
  all_digits ds -> skip_digits (ds ++ rest) = skip_digits rest.
Proof.
  unfold all_digits. induction ds as [|c ds IH]; simpl; [reflexivity|].
  rewrite andb_true_iff. intros [Hc Hds]. rewrite Hc. now apply IH.
Qed.

Lemma json_exp_part_shaped (ep : str) :
  exponent_shaped ep -> json_exp_part ep = Some [].
Proof.
  intros [-> | (s & c & ds & -> & Hs & Hd)]; [reflexivity|].
  unfold all_digits in Hd. simpl in Hd. apply andb_true_iff in Hd.
  destruct Hd as [Hc Hds].
  assert (E : skip_digits ds = []).
  { rewrite <- (app_nil_r ds). now rewrite skip_digits_app. }
  destruct Hs as [-> | ->]; simpl; now rewrite Hc, E.
Qed.

Lemma json_frac_exp_shaped (fp ep : str) :
  fraction_shaped fp -> exponent_shaped ep ->
  match json_frac_part (fp ++ ep) with
  | Some s3 => json_exp_part s3 = Some []
  | None => False
  end.
Proof.
  intros [-> | (c & ds & -> & Hd)] He.
  - simpl app. pose proof (json_exp_part_shaped ep He) as H.
    destruct He as [-> | (s & c & ds & -> & _ & _)]; [reflexivity|].
    exact H.
  - unfold all_digits in Hd. simpl in Hd. apply andb_true_iff in Hd.
    destruct Hd as [Hc Hds]. simpl. rewrite Hc.
    rewrite skip_digits_app by exact Hds.
    pose proof (json_exp_part_shaped ep He) as H.
    destruct He as [-> | (s & c' & ds' & -> & _ & _)]; [reflexivity|].
    exact H.
Qed.

Lemma skip_digits_stops (fp ep : str) :
  fraction_shaped fp -> exponent_shaped ep ->
  skip_digits (fp ++ ep) = fp ++ ep.
Proof.
  intros [-> | (c & ds & -> & _)] He; [|reflexivity].
  destruct He as [-> | (s & c & ds & -> & _ & _)]; reflexivity.
Qed.

(** Text of the shape sign, integer part without a needless leading zero,
    fraction, exponent is a JSON number. *)
Lemma json_number_shape (neg : bool) (c : ascii) (cs fp ep : str) :
  all_digits (c :: cs) -> (Ascii.eqb c "0" = false \/ cs = []) ->
  fraction_shaped fp -> exponent_shaped ep ->
  is_json_number (sign_text neg ++ (c :: cs) ++ fp ++ ep) = true.
Proof.
  intros Hd Hlead Hf He.
  assert (Hbody : is_json_number ((c :: cs) ++ fp ++ ep) = true
                  /\ Ascii.eqb c "-" = false).
  { unfold all_digits in Hd. simpl in Hd. apply andb_true_iff in Hd.
    destruct Hd as [Hc Hcs].
    assert (Hm : Ascii.eqb c "-" = false).
    { destruct (Ascii.eqb_spec c "-"%char) as [->|]; [discriminate|reflexivity]. }
    split; [|exact Hm].
    unfold is_json_number.
    change ((c :: cs) ++ fp ++ ep) with (c :: (cs ++ fp ++ ep)).
    cbv beta iota zeta. rewrite Hm. unfold json_int_part.
    pose proof (json_frac_exp_shaped fp ep Hf He) as Hfe.
    destruct (Ascii.eqb c "0") eqn:E0.
    - destruct Hlead as [?| ->]; [discriminate|]. simpl app.
      destruct (json_frac_part (fp ++ ep)); [now rewrite Hfe|contradiction].
    - rewrite Hc, skip_digits_app, skip_digits_stops by assumption.
      destruct (json_frac_part (fp ++ ep)); [now rewrite Hfe|contradiction]. }
  destruct neg; [|exact (proj1 Hbody)].
  destruct Hbody as [Hb Hm]. unfold is_json_number in *.
  change (sign_text true ++ (c :: cs) ++ fp ++ ep)
    with ("-"%char :: c :: (cs ++ fp ++ ep)).
  change ((c :: cs) ++ fp ++ ep) with (c :: (cs ++ fp ++ ep)) in Hb.
  cbv beta iota zeta in Hb. rewrite Hm in Hb.
  change (Ascii.eqb "-" "-") with true. cbv beta iota zeta. exact Hb.
Qed.

Lemma pos_digits_normal (p : positive) :
  exists d l, to_list (Pos.to_uint p) = d :: l /\ d <> d0.
Proof.
  pose proof (DecimalPos.Unsigned.to_uint_nonzero p) as Hnz.
  pose proof (DecimalPos.Unsigned.to_of (Pos.to_uint p)) as Hn.
  rewrite DecimalPos.Unsigned.of_to in Hn. simpl N.to_uint in Hn.
  assert (Hh : nzhead (Pos.to_uint p) <> Nil).
  { intros E. apply Hnz. rewrite Hn. now apply unorm_0. }
  rewrite (unorm_nzhead _ Hh) in Hn.
  pose proof (nzhead_nonzero (Pos.to_uint p)) as Hd0.
  rewrite <- Hn in Hd0, Hh.
  destruct (Pos.to_uint p) as [|u|u|u|u|u|u|u|u|u|u]; simpl.
  1: congruence.
  1: exfalso; now apply (Hd0 u).
  all: eexists; eexists; split; [reflexivity|discriminate].
Qed.

Lemma string_of_uint_digits (u : uint) :
  list_ascii_of_string (DecimalString.NilEmpty.string_of_uint u) =
  map digit_char (to_list u).
Proof. induction u; simpl; congruence. Qed.

Lemma string_of_pos_digits (p : positive) :
  list_ascii_of_string (DecimalString.NilZero.string_of_uint (Pos.to_uint p)) =
  map digit_char (to_list (Pos.to_uint p)).
Proof.
  pose proof (DecimalPos.Unsigned.to_uint_nonnil p) as Hn.
  rewrite <- string_of_uint_digits.
  destruct (Pos.to_uint p); [congruence|reflexivity..].
Qed.

Lemma fraction_shaped_nil : fraction_shaped [].
Proof. now left. Qed.

Lemma exponent_shaped_nil : exponent_shaped [].
Proof. now left. Qed.

Create HintDb shape.
#[local] Hint Resolve fraction_shaped_nil exponent_shaped_nil all_digits_map
  all_digits_app all_digits_repeat_zero : shape.

Lemma json_number_pos_digits (neg : bool) (p : positive) :
  is_json_number
    (sign_text neg ++ map digit_char (to_list (Pos.to_uint p))) = true.
Proof.
  destruct (pos_digits_normal p) as (d & l & -> & Hd).
  rewrite <- (app_nil_r (map digit_char (d :: l))).
  change (@nil ascii) with (@nil ascii ++ @nil ascii) at 1.
  apply json_number_shape; auto with shape.
  - apply (all_digits_map (d :: l)).
  - left. now apply digit_char_nonzero.
Qed.

(** The decimal text of every [int] is a JSON number. *)
Lemma ostream_int_json_number (z : Z) : is_json_number (ostream_int z) = true.
Proof.
  unfold ostream_int. destruct z as [|p|p]; simpl Z.to_int.
  - reflexivity.
  - unfold DecimalString.NilZero.string_of_int.
    rewrite string_of_pos_digits. apply (json_number_pos_digits false).
  - unfold DecimalString.NilZero.string_of_int.
    change (list_ascii_of_string
              (String "-" (DecimalString.NilZero.string_of_uint (Pos.to_uint p))))
      with ("-"%char
              :: list_ascii_of_string
                   (DecimalString.NilZero.string_of_uint (Pos.to_uint p))).
    rewrite string_of_pos_digits. apply (json_number_pos_digits true).
Qed.

(** Reading the decimal text of an [int] gives the [int] back. *)
Lemma ostream_int_denotes (z : Z) :
  option_map Z.of_int
    (DecimalString.NilZero.int_of_string (string_of_list_ascii (ostream_int z)))
  = Some z.
Proof.
  unfold ostream_int. rewrite string_of_list_ascii_of_string.
  rewrite DecimalString.NilZero.isi.
  - simpl. now rewrite DecimalZ.of_to.
  - destruct z as [|p|p]; try discriminate.
    intros E. injection E as E.
    exact (DecimalPos.Unsigned.to_uint_nonnil p E).
  - destruct z as [|p|p]; try discriminate.
    intros E. injection E as E.
    exact (DecimalPos.Unsigned.to_uint_nonnil p E).
Qed.

(** ** The text of a finite [double] *)

Lemma digits_succ_length (l : list digits) :
  length (fst (digits_succ l)) = length l.
Proof.
  induction l as [|d l IH]; simpl; [reflexivity|].
  destruct (digits_succ l) as [r c]. simpl in IH.
  destruct c; [destruct (digit_succ d)|]; simpl; now rewrite IH.
Qed.

Lemma digits_succ_head (d : digits) (l : list digits) :
  d <> d0 -> snd (digits_succ (d :: l)) = false ->
  exists d' r, fst (digits_succ (d :: l)) = d' :: r /\ d' <> d0.
Proof.
  intros Hd. simpl. destruct (digits_succ l) as [r c].
  destruct c.
  - destruct d; simpl; intros Hc; try discriminate; try congruence;
      eexists; eexists; (split; [reflexivity|discriminate]).
  - intros _. exists d, r. now split.
Qed.

Lemma round_significant_shape (d : digits) (l : list digits) :
  d <> d0 ->
  exists s1 rest,
    fst (round_significant 6 (d :: l)) = s1 :: rest
    /\ s1 <> d0 /\ length rest = 5%nat.
Proof.
  intros Hd. unfold round_significant.
  set (kept := firstn 6 (d :: l) ++ repeat d0 (6 - length (d :: l))).
  assert (Hk : exists k, kept = d :: k /\ length k = 5%nat).
  { subst kept. exists (firstn 5 l ++ repeat d0 (6 - length (d :: l))).
    split; [reflexivity|].
    rewrite length_app, length_firstn, repeat_length. simpl length. lia. }
  destruct Hk as (k & Ek & Lk).
  destruct (rounds_up kept (skipn 6 (d :: l))).
  - pose proof (digits_succ_length kept) as Hl.
    pose proof (digits_succ_head d k Hd) as Hh. rewrite <- Ek in Hh.
    destruct (digits_succ kept) as [r c]. simpl fst in *. simpl snd in *.
    destruct c.
    + exists d1. eexists. simpl. repeat split. discriminate.
    + destruct (Hh eq_refl) as (d' & r' & -> & Hd').
      exists d', r'. repeat split; auto.
      rewrite Ek in Hl. simpl in Hl. lia.
  - exists d, k. simpl. now repeat split.
Qed.

Lemma strip_leading_zeros_last (a : list digits) (s : digits) :
  s <> d0 -> exists a', strip_leading_zeros (a ++ [s]) = a' ++ [s].
Proof.
  intros Hs. induction a as [|x a [a' IH]].
  - exists []. simpl. destruct s; congruence.
  - destruct x; simpl; try (eexists (_ :: a); reflexivity).
    exists a'. exact IH.
Qed.

Lemma strip_trailing_zeros_head (s : digits) (rest : list digits) :
  s <> d0 -> exists t, strip_trailing_zeros (s :: rest) = s :: t.
Proof.
  intros Hs. unfold strip_trailing_zeros. simpl List.rev.
  destruct (strip_leading_zeros_last (List.rev rest) s Hs) as [a' ->].
  rewrite rev_app_distr. simpl. now eexists.
Qed.

Lemma fraction_text_shaped (frac : list digits) :
  fraction_shaped (fraction_text frac).
Proof.
  unfold fraction_text. destruct (strip_trailing_zeros frac) as [|d t].
  - now left.
  - right. exists (digit_char d), (map digit_char t). split; [reflexivity|].
    apply (all_digits_map (d :: t)).
Qed.

Lemma N_digits_nonempty (n : N) :
  exists d l, to_list (N.to_uint n) = d :: l.
Proof.
  destruct n as [|p].
  - now exists d0, [].
  - destruct (pos_digits_normal p) as (d & l & E & _). now exists d, l.
Qed.

Lemma exponent_text_shaped (x : Z) : exponent_shaped (exponent_text x).
Proof.
  unfold exponent_text. right.
  destruct (N_digits_nonempty (Z.abs_N x)) as (d & l & ->).
  set (ds := map digit_char (d :: l)).
  assert (Hall : all_digits (repeat "0"%char (2 - length ds) ++ ds)).
  { apply all_digits_app; [apply all_digits_repeat_zero|apply all_digits_map]. }
  assert (Hne : exists c t, repeat "0"%char (2 - length ds) ++ ds = c :: t).
  { destruct (2 - length ds)%nat; simpl; eexists; eexists; reflexivity. }
  destruct Hne as (c & t & E). rewrite E in *.
  exists (if (x <? 0)%Z then "-"%char else "+"%char), c, t.
  split; [reflexivity|]. split; [|exact Hall].
  destruct (x <? 0)%Z; auto.
Qed.

#[local] Hint Resolve fraction_text_shaped exponent_text_shaped : shape.

Lemma format_g_json_number (neg : bool) (m : positive) (e : Z) :
  is_json_number (sign_text neg ++ format_g m e) = true.
Proof.
  unfold format_g.
  set (n := if (0 <=? e)%Z then (Z.pos m * 2 ^ e)%Z
            else (Z.pos m * 5 ^ (- e))%Z).
  assert (Hn : (0 < n)%Z).
  { subst n. destruct (0 <=? e)%Z eqn:E.
    - apply Z.leb_le in E. apply Z.mul_pos_pos; [lia|].
      apply Z.pow_pos_nonneg; lia.
    - apply Z.leb_gt in E. apply Z.mul_pos_pos; [lia|].
      apply Z.pow_pos_nonneg; lia. }
  destruct n as [|p|p]; try lia. simpl Z.to_N. simpl N.to_uint.
  destruct (pos_digits_normal p) as (d & l & -> & Hd).
  destruct (round_significant_shape d l Hd) as (s1 & rest & Hsig & Hs1 & Hlen).
  destruct (round_significant 6 (d :: l)) as [sig carry]. simpl in Hsig.
  subst sig.
  set (x := (Z.of_nat (length (d :: l)) - 1
             + (if (0 <=? e)%Z then 0 else e) + carry)%Z).
  destruct ((-4 <=? x) && (x <? 6))%Z.
  - destruct (0 <=? x)%Z.
    + rewrite Nat.add_1_r. simpl firstn. simpl map.
      rewrite <- (app_nil_r (fraction_text _)).
      apply json_number_shape; auto with shape.
      * apply (all_digits_map (s1 :: firstn (Z.to_nat x) rest)).
      * left. now apply digit_char_nonzero.
    + destruct (strip_trailing_zeros_head s1 rest Hs1) as [t ->].
      set (zeros := repeat "0"%char (Z.to_nat (- x - 1))).
      assert (Hf : fraction_shaped
                     ("."%char :: zeros ++ map digit_char (s1 :: t))).
      { right.
        assert (Hall : all_digits (zeros ++ map digit_char (s1 :: t))).
        { apply all_digits_app;
            [apply all_digits_repeat_zero|apply all_digits_map]. }
        destruct (zeros ++ map digit_char (s1 :: t)) as [|c ds] eqn:E.
        - destruct zeros; discriminate E.
        - now exists c, ds. }
      change (q "0." ++ zeros ++ map digit_char (s1 :: t))
        with (["0"%char] ++ ("."%char :: zeros ++ map digit_char (s1 :: t))).
      rewrite <- (app_nil_r ("."%char :: _)).
      apply json_number_shape; auto with shape. reflexivity.
  - simpl firstn. simpl map.
    apply json_number_shape; auto with shape.
    apply (all_digits_map [s1]).
Qed.

(** The text of every finite [double] is a JSON number. *)
Lemma ostream_double_json_number (v : double) :
  is_finite v = true -> is_json_number (ostream_double v) = true.
Proof.
  destruct v as [neg|neg|neg|neg m e]; simpl; try discriminate; intros _.
  - now destruct neg.
  - apply format_g_json_number.
Qed.

(** The text of the other [double]s is a word, not a number. *)
Lemma ostream_double_not_finite (v : double) :
  is_finite v = false ->
  In (ostream_double v) [q "inf"; q "-inf"; q "nan"; q "-nan"]
  /\ is_json_number (ostream_double v) = false.
Proof.
  destruct v as [neg|neg|neg|neg m e]; simpl; try discriminate; intros _;
    destruct neg; simpl; tauto.
Qed.

(** ** Values on the wire *)

Lemma double_on_wire_ostream (d : double) : double_on_wire d (ostream_double d).
Proof.
  split; [reflexivity|]. destruct (is_finite d) eqn:E.
  - now apply ostream_double_json_number.
  - now apply ostream_double_not_finite.
Qed.

Lemma spec_encode_value_on_wire (v : TypedValue) :
  value_on_wire v (spec_encode_value v).
Proof.
  destruct v as [z|d|s|t|l|l]; simpl.
  - split; [reflexivity|apply ostream_int_json_number].
  - apply double_on_wire_ostream.
  - exists (escape_json_string s).
    split; [reflexivity|apply decode_escaped_string].
  - reflexivity.
  - split; [reflexivity|]. apply Forall_forall. intros z _.
    apply ostream_int_json_number.
  - split; [reflexivity|]. apply Forall_forall. intros d _.
    apply double_on_wire_ostream.
Qed.

Lemma member_text_stored (name : str) (v : TypedValue) :
  member_text (name, stored v) = spec_encode_member name v.
Proof. destruct v; reflexivity. Qed.

Lemma map_assign_typed (k : str) (v : TypedValue) (m : var_map) :
  Forall typed_entry m -> Forall typed_entry (map_assign k (stored v) m).
Proof.
  induction m as [|[k' v'] m IH]; simpl; intros H.
  - constructor; [now exists v|constructor].
  - inversion H as [|? ? Hv Hm]; subst.
    destruct (str_compare k k').
    + constructor; [now exists v|exact Hm].
    + constructor; [now exists v|exact H].
    + constructor; [exact Hv|now apply IH].
Qed.

Lemma run_typed (cs : list call) :
  forall b, Forall typed_entry (variables_ b) ->
            Forall typed_entry (variables_ (run cs b)).
Proof.
  induction cs as [|c cs IH]; intros b H; simpl; auto.
  apply IH. destruct c as [name v|w barrier_id]; simpl.
  - rewrite add_stores. simpl. now apply map_assign_typed.
  - destruct (wait_variables w barrier_id b) as [-> | ->];
      [exact H|constructor].
Qed.

Lemma typed_members (m : var_map) :
  Forall typed_entry m ->
  exists members : list (str * TypedValue),
    m = map (fun nv => (fst nv, stored (snd nv))) members.
Proof.
  induction 1 as [|[k sv] m [v Hv] _ [members IH]].
  - now exists [].
  - exists ((k, v) :: members). simpl in *. now rewrite Hv, IH.
Qed.

(** After [add_double] of the name x with the value plus infinity the
    request carries the member "x":inf, and inf is not a JSON number. *)
Lemma infinite_double_not_a_json_number :
  make_barrier_json (q "init") (add_double (q "x") (Dinf false) sample_client)
  = q "{'barrier_id':'init','variables':{'x':inf}}"
  /\ variables_ (add_double (q "x") (Dinf false) sample_client)
     = [(q "x", stored (Double (Dinf false)))]
  /\ ~ value_as_claimed (Double (Dinf false))
         (value_text (q "x", stored (Double (Dinf false)))).
Proof.
  repeat split. intros [_ H]. discriminate H.
Qed.

(** The text of the barrier request.  For every barrier identifier and
    every registry reached by adds and waits, the message is the text
    {"barrier_id":"<id>","variables":{<members>}} with the identifier
    inserted as it is and the members separated by commas, one per entry,
    each a quoted JSON-escaped name, a colon and the value: an Integer as
    its decimal text, a JSON number; a finite Double as a JSON number, an
    infinite or NaN Double as the bare word inf, -inf, nan or -nan; a String
    quoted and JSON-escaped; a Boolean as true or false; a sequence as the
    texts of its elements between brackets, separated by commas, with no
    white space. *)
Theorem barrier_request_format :
  forall (cs : list call) (pid : str) (fd : Z) (conn : bool) (barrier_id : str),
    let b := run cs (mkBarrier pid fd conn []) in
    exists members : list (str * TypedValue),
      variables_ b = map (fun nv => (fst nv, stored (snd nv))) members
      /\ make_barrier_json barrier_id b =
         q "{'barrier_id':'" ++ barrier_id ++ q "','variables':{"
           ++ join (q ",")
                (map (fun nv =>
                        q "'" ++ escape_json_string (fst nv) ++ q "':"
                          ++ spec_encode_value (snd nv))
                   members)
           ++ q "}}"
      /\ Forall (fun nv =>
                   json_string_decode (escape_json_string (fst nv))
                   = Some (fst nv)
                   /\ value_on_wire (snd nv) (spec_encode_value (snd nv)))
           members.
Proof.
  intros cs pid fd conn barrier_id b.
  assert (Ht : Forall typed_entry (variables_ b)).
  { apply run_typed. constructor. }
  destruct (typed_members _ Ht) as [members Hm].
  exists members. split; [exact Hm|]. split.
  - rewrite make_barrier_json_members, Hm, map_map. do 5 f_equal.
    apply map_ext. intros [name v]. apply member_text_stored.
  - apply Forall_forall. intros [name v] _. split.
    + apply decode_escaped_string.
    + apply spec_encode_value_on_wire.
Qed.

(** C4. The message [wait] transmits is not always a JSON object, against
    the claim and against the comment of [make_barrier_json], which promises
    a JSON string.  After [add_double] of the name x with plus infinity,
    [wait] sends {"barrier_id":"init","variables":{"x":inf}}, and inf is not
    a JSON number; minus infinity and a NaN give -inf and nan, alone and
    inside a sequence.  And the barrier identifier goes between the quotes
    as it is: with an identifier made of a, a double quote and b, the text
    sent has that bare quote inside the string of barrier_id, although the
    identifier is not the body of a JSON string, while the same text
    registered as a name is escaped. *)
Theorem wait_sends_text_that_is_not_json :
  wait (answers 0 (Some (q "{'status':'success'}"))) (q "init")
    (add_double (q "x") (Dinf false) sample_client)
  = (inr true, sample_client,
     [Send 3 (q "{'barrier_id':'init','variables':{'x':inf}}"); Recv 3 4095])
  /\ is_json_number (q "inf") = false
  /\ sent (snd (wait (answers 0 (Some (q "{'status':'success'}"))) (q "init")
                  (add_double_vector (q "v") [Dinf true; Dnan false]
                     (add_double (q "x") (Dnan false) sample_client))))
     = [q "{'barrier_id':'init','variables':{'v':[-inf,nan],'x':nan}}"]
  /\ is_json_number (q "-inf") = false
  /\ is_json_number (q "nan") = false
  /\ wait (answers 0 (Some (q "{'status':'success'}"))) (q "a'b") sample_client
     = (inr true, sample_client,
        [Send 3 (q "{'barrier_id':'a'b','variables':{}}"); Recv 3 4095])
  /\ json_string_decode (q "a'b") = None
  /\ sent (snd (wait (answers 0 (Some (q "{'status':'success'}"))) (q "init")
                  (add_bool (q "a'b") true sample_client)))
     = [q "{'barrier_id':'init','variables':{'a\'b':true}}"]
  /\ json_string_decode (q "a\'b") = Some (q "a'b").
Proof.
  repeat split.
Qed.

(** * Further properties of the code *)

(** ** The registry as a map *)

Lemma map_assign_twice (k : str) (v1 v2 : str * str) (m : var_map) :
  map_assign k v2 (map_assign k v1 m) = map_assign k v2 m.
Proof.
  induction m as [|[k' v'] m IH]; simpl.
  - now rewrite str_compare_refl.
  - destruct (str_compare k k') eqn:E; simpl.
    + now rewrite E.
    + now rewrite str_compare_refl.
    + now rewrite E, IH.
Qed.

(** X1. A second add under a name replaces the first altogether, whatever
    the two types: the client is the one the second add alone would have
    given. *)
Theorem add_overwrites :
  forall (name : str) (v1 v2 : TypedValue) (b : Barrier),
    add name v2 (add name v1 b) = add name v2 b.
Proof.
  intros name v1 v2 b. rewrite !add_stores. unfold set_variables. simpl.
  now rewrite map_assign_twice.
Qed.

Lemma map_find_below (k : str) (m : var_map) :
  Forall (str_lt k) (keys m) -> map_find k m = None.
Proof.
  induction m as [|[k' v'] m IH]; simpl; intros H; [reflexivity|].
  inversion H as [|? ? Hk Hm]; subst.
  unfold str_eqb. unfold str_lt in Hk. rewrite Hk. now apply IH.
Qed.

Lemma forall_lt_weaken (k k' : str) (l : list str) :
  str_lt k k' -> Forall (str_lt k') l -> Forall (str_lt k) l.
Proof.
  intros Hk H. eapply Forall_impl; [|exact H].
  intros a Ha. exact (str_lt_trans _ _ _ Hk Ha).
Qed.

(** Two maps in key order that answer every lookup alike are the same. *)
Lemma sorted_map_ext (m1 : var_map) :
  forall m2 : var_map,
    StronglySorted str_lt (keys m1) -> StronglySorted str_lt (keys m2) ->
    (forall k, map_find k m1 = map_find k m2) -> m1 = m2.
Proof.
  induction m1 as [|[k1 v1] m1 IH]; intros [|[k2 v2] m2] S1 S2 H.
  - reflexivity.
  - specialize (H k2). simpl in H. now rewrite str_eqb_refl in H.
  - specialize (H k1). simpl in H. now rewrite str_eqb_refl in H.
  - simpl in S1, S2.
    inversion S1 as [|? ? S1' L1]; inversion S2 as [|? ? S2' L2]; subst.
    assert (Ek : k1 = k2).
    { destruct (str_compare k1 k2) eqn:E.
      - now apply str_compare_eq.
      - pose proof (H k1) as H1. simpl in H1.
        rewrite str_eqb_refl in H1. unfold str_eqb in H1 at 1.
        rewrite E in H1.
        rewrite (map_find_below k1 m2) in H1; [discriminate|].
        now apply (forall_lt_weaken k1 k2).
      - pose proof (H k2) as H2. simpl in H2.
        rewrite str_eqb_refl in H2. unfold str_eqb in H2 at 1.
        rewrite str_compare_antisym, E in H2. simpl in H2.
        rewrite (map_find_below k2 m1) in H2; [discriminate|].
        apply (forall_lt_weaken k2 k1); [now apply str_compare_gt_lt|exact L1]. }
    subst k2.
    assert (Ev : v1 = v2).
    { specialize (H k1). simpl in H. rewrite str_eqb_refl in H. congruence. }
    subst v2. f_equal. apply IH; auto.
    intros k. specialize (H k). simpl in H.
    destruct (str_eqb k k1) eqn:E; [|exact H].
    apply str_eqb_eq in E. subst k.
    now rewrite !map_find_below.
Qed.

Lemma run_strongly_sorted (cs : list call) (pid : str) (fd : Z) (conn : bool) :
  StronglySorted str_lt (keys (variables_ (run cs (mkBarrier pid fd conn [])))).
Proof.
  apply sorted_keys_strongly, run_sorted. simpl. constructor.
Qed.

(** X2. On a registry reached by adds and waits, adds under two different
    names commute: the client, and so the next request, does not depend on
    the order in which the two variables were registered. *)
Theorem adds_of_different_names_commute :
  forall (cs : list call) (pid : str) (fd : Z) (conn : bool)
         (n1 n2 : str) (v1 v2 : TypedValue),
    n1 <> n2 ->
    let b := run cs (mkBarrier pid fd conn []) in
    add n1 v1 (add n2 v2 b) = add n2 v2 (add n1 v1 b).
Proof.
  intros cs pid fd conn n1 n2 v1 v2 Hne b.
  pose proof (run_strongly_sorted cs pid fd conn) as Hs. fold b in Hs.
  rewrite !add_stores. unfold set_variables. simpl. f_equal.
  apply sorted_map_ext.
  - apply sorted_keys_strongly. do 2 apply map_assign_sorted.
    now apply StronglySorted_Sorted.
  - apply sorted_keys_strongly. do 2 apply map_assign_sorted.
    now apply StronglySorted_Sorted.
  - intros k. rewrite !map_find_assign.
    destruct (str_eqb k n1) eqn:E1; destruct (str_eqb k n2) eqn:E2;
      try reflexivity.
    apply str_eqb_eq in E1, E2. congruence.
Qed.

Lemma adds_of_different_names_commute_witness :
  q "a" <> q "b"
  /\ add (q "a") (Integer 1) (add (q "b") (Boolean true) sample_client)
     = add (q "b") (Boolean true) (add (q "a") (Integer 1) sample_client).
Proof.
  split; [discriminate|].
  apply (adds_of_different_names_commute [] (q "program1") 3 true
           (q "a") (q "b") (Integer 1) (Boolean true)).
  discriminate.
Defined.

Lemma map_assign_length (k : str) (v : str * str) (m : var_map) :
  StronglySorted str_lt (keys m) ->
  length (map_assign k v m) =
  (length m + match map_find k m with Some _ => 0 | None => 1 end)%nat.
Proof.
  induction m as [|[k' v'] m IH]; simpl; intros Hs; [reflexivity|].
  inversion Hs as [|? ? Hs' Hl]; subst.
  unfold str_eqb. destruct (str_compare k k') eqn:E; simpl.
  - lia.
  - rewrite (map_find_below k m); [lia|].
    now apply (forall_lt_weaken k k').
  - rewrite IH by exact Hs'. lia.
Qed.

(** X3. On a registry reached by adds and waits, an add under a name that is
    already registered leaves the number of entries as it is, and an add
    under a new name makes it one more. *)
Theorem add_counts_names :
  forall (cs : list call) (pid : str) (fd : Z) (conn : bool)
         (name : str) (v : TypedValue),
    let b := run cs (mkBarrier pid fd conn []) in
    length (variables_ (add name v b)) =
    (length (variables_ b)
     + match map_find name (variables_ b) with Some _ => 0 | None => 1 end)%nat.
Proof.
  intros cs pid fd conn name v b. rewrite add_stores. simpl.
  apply map_assign_length. apply run_strongly_sorted.
Qed.

(** ** More on escaping *)

Lemma escape_json_string_flat_map (s : str) :
  escape_json_string s = flat_map escape_json_char s.
Proof. unfold escape_json_string. now rewrite escape_json_string_fold. Qed.

(** X4. Escaping goes character by character: the escape of two strings
    put together is the two escapes put together. *)
Theorem escape_json_string_app :
  forall a b : str,
    escape_json_string (a ++ b) = escape_json_string a ++ escape_json_string b.
Proof.
  intros a b. rewrite !escape_json_string_flat_map. apply flat_map_app.
Qed.

Lemma escape_plain_char (c : ascii) :
  plain_char c = true -> escape_json_char c = [c].
Proof.
  destruct c as [[] [] [] [] [] [] [] []]; intros H;
    first [reflexivity | discriminate H].
Qed.

(** X5. A string without control characters, quotes and backslashes --
    bytes from 0x80 up included -- is escaped to itself. *)
Theorem escape_json_string_plain :
  forall s : str, forallb plain_char s = true -> escape_json_string s = s.
Proof.
  induction s as [|c s IH]; intros H; [reflexivity|].
  simpl in H. apply andb_true_iff in H. destruct H as [Hc Hs].
  rewrite escape_json_string_cons, (escape_plain_char c Hc), IH by exact Hs.
  reflexivity.
Qed.

Lemma escape_json_string_plain_witness :
  forallb plain_char (q "solutions_count") = true
  /\ escape_json_string (q "solutions_count") = q "solutions_count".
Proof.
  split; [reflexivity|].
  apply (escape_json_string_plain (q "solutions_count")). reflexivity.
Defined.

Lemma escape_json_char_length (c : ascii) :
  (1 <= length (escape_json_char c) <= 6)%nat.
Proof.
  destruct c as [[] [] [] [] [] [] [] []]; vm_compute; split;
    repeat constructor.
Qed.

(** X6. The escaped string is at least as long as the string and at most six
    times as long. *)
Theorem escape_json_string_length :
  forall s : str,
    (length s <= length (escape_json_string s) <= 6 * length s)%nat.
Proof.
  induction s as [|c s IH]; [simpl; lia|].
  rewrite escape_json_string_cons, length_app.
  pose proof (escape_json_char_length c). simpl length. lia.
Qed.

(** X7. Different strings have different escapes: two names, or two string
    values, that differ are still told apart in the request. *)
Theorem escape_json_string_injective :
  forall a b : str, escape_json_string a = escape_json_string b -> a = b.
Proof.
  intros a b H.
  pose proof (decode_escaped_string a) as Ha.
  rewrite H, decode_escaped_string in Ha. congruence.
Qed.

Lemma escape_json_string_injective_witness :
  escape_json_string (q "x'1") = escape_json_string (q "x'1")
  /\ q "x'1" = q "x'1".
Proof.
  split; [reflexivity|].
  apply (escape_json_string_injective (q "x'1") (q "x'1")). reflexivity.
Defined.

Lemma escape_json_char_clean (c : ascii) (rest : str) :
  forallb (fun x => N.leb 32 (N_of_ascii x)) (escape_json_char c) = true
  /\ quotes_escaped false (escape_json_char c ++ rest)
     = quotes_escaped false rest.
Proof.
  destruct c as [[] [] [] [] [] [] [] []]; split; reflexivity.
Qed.

(** X8. The escaped string holds no control byte (nothing below 0x20), and
    no quote except right after an escaping backslash; it ends outside an
    escape.  So between two quotes it cannot end the JSON string early. *)
Theorem escape_json_string_clean :
  forall s : str,
    forallb (fun x => N.leb 32 (N_of_ascii x)) (escape_json_string s) = true
    /\ quotes_escaped false (escape_json_string s) = true.
Proof.
  induction s as [|c s [IH1 IH2]]; [split; reflexivity|].
  rewrite escape_json_string_cons.
  destruct (escape_json_char_clean c (escape_json_string s)) as [H1 H2].
  split.
  - now rewrite forallb_app, H1, IH1.
  - now rewrite H2.
Qed.

(** ** More on [wait] *)

Lemma wait_frame :
  forall (w : world) (barrier_id : str) (b : Barrier),
    let b' := snd (fst (wait w barrier_id b)) in
    program_id_ b' = program_id_ b
    /\ socket_fd_ b' = socket_fd_ b
    /\ connected_ b' = connected_ b
    /\ forallb wait_event (snd (wait w barrier_id b)) = true
    /\ closed_fds (snd (wait w barrier_id b)) = [].
Proof.
  intros w barrier_id b. unfold wait.
  destruct (negb (connected_ b)); [now repeat split|].
  destruct (send_result w =? -1)%Z; [now repeat split|].
  destruct (recv w (4096 - 1)) as [received buffer].
  destruct (received <=? 0)%Z; now repeat split.
Qed.

(** X9. [wait] changes nothing of the client but the registry -- the
    program identifier, the descriptor and the connected flag stay, also
    when the send or the receive fails -- and all it does is send, receive
    and write to [std::cerr]: it never closes or reopens the connection. *)
Theorem wait_keeps_connection :
  forall (w : world) (barrier_id : str) (b : Barrier),
    let b' := snd (fst (wait w barrier_id b)) in
    program_id_ b' = program_id_ b
    /\ socket_fd_ b' = socket_fd_ b
    /\ connected_ b' = connected_ b
    /\ forallb wait_event (snd (wait w barrier_id b)) = true
    /\ closed_fds (snd (wait w barrier_id b)) = [].
Proof. exact wait_frame. Qed.

(** X10. On a connected client [wait] writes a line to [std::cerr] exactly
    when the send fails or the receive returns no byte, and then it returns
    false; a reply without the success token makes it return false without
    a line. *)
Theorem wait_reports_transport_failures :
  forall (w : world) (barrier_id : str) (b : Barrier),
    connected_ b = true ->
    let failed :=
      ((send_result w =? -1) || (fst (recv w 4095) <=? 0))%Z in
    existsb is_cerr (snd (wait w barrier_id b)) = failed
    /\ (failed = true -> fst (fst (wait w barrier_id b)) = inr false).
Proof.
  intros w barrier_id b Hc failed. subst failed.
  unfold wait. rewrite Hc. simpl negb. cbv iota.
  change (4096 - 1) with 4095.
  destruct (send_result w =? -1)%Z; [now split|].
  destruct (recv w 4095) as [received buffer]. simpl fst.
  destruct (received <=? 0)%Z; simpl; split; auto; discriminate.
Qed.

Lemma wait_reports_transport_failures_witness :
  connected_ sample_client = true
  /\ existsb is_cerr (snd (wait (answers 0 (Some [])) (q "init") sample_client))
     = true.
Proof.
  split; [reflexivity|].
  exact (proj1 (wait_reports_transport_failures
                  (answers 0 (Some [])) (q "init") sample_client eq_refl)).
Defined.

(** X11. [wait] returns true only when the client is connected, the send
    was accepted and the reply holds the success token within its first
    4095 bytes and before any NUL byte; and then the registry is empty. *)
Theorem wait_true_only_on_success_reply :
  forall (w : world) (barrier_id : str) (b : Barrier),
    fst (fst (wait w barrier_id b)) = inr true ->
    connected_ b = true /\ send_result w <> (-1)%Z
    /\ (exists reply i,
           recv_data w = Some reply /\ occurs_at success_token reply i
           /\ (i + 18 <= 4095)%nat /\ ~ In NUL (firstn i reply))
    /\ variables_ (snd (fst (wait w barrier_id b))) = [].
Proof.
  intros w barrier_id b H.
  destruct (connected_ b) eqn:Hc;
    [|unfold wait in H; rewrite Hc in H; discriminate H].
  destruct (send_result w =? -1)%Z eqn:Hs;
    [unfold wait in H; rewrite Hc, Hs in H; discriminate H|].
  apply Z.eqb_neq in Hs.
  destruct (recv_data w) as [reply|] eqn:Hr;
    [|unfold wait, recv in H; rewrite Hc, Hr in H;
      apply Z.eqb_neq in Hs; rewrite Hs in H; discriminate H].
  rewrite (wait_result w barrier_id b reply Hc Hs Hr) in H.
  injection H as H. apply has_success_token_true in H. destruct H as [i Hi].
  pose proof Hi as Hi'.
  apply seen_token_position in Hi. destruct Hi as (Ho & Hlt & Hn).
  repeat split; auto.
  - exists reply, i. repeat split; auto. lia.
  - rewrite (wait_registry w barrier_id b Hc).
    apply Z.eqb_neq in Hs. rewrite Hs, Hr.
    destruct reply; [|reflexivity].
    unfold occurs_at in Ho. rewrite skipn_nil, firstn_nil in Ho.
    discriminate Ho.
Qed.

Lemma wait_true_only_on_success_reply_witness :
  fst (fst (wait (answers 0 (Some (q "{'status':'success'}"))) (q "init")
              (add_int (q "x") 1 sample_client))) = inr true
  /\ variables_ (snd (fst (wait (answers 0 (Some (q "{'status':'success'}")))
                            (q "init") (add_int (q "x") 1 sample_client))))
     = [].
Proof.
  split; [reflexivity|].
  exact (proj2 (proj2 (proj2 (wait_true_only_on_success_reply
                  (answers 0 (Some (q "{'status':'success'}"))) (q "init")
                  (add_int (q "x") 1 sample_client) eq_refl)))).
Defined.

(** X12. After a [wait] that got a reply, with or without the success
    token, the next request carries an empty variables object, whatever
    had been registered before. *)
Theorem request_after_reply_is_empty :
  forall (w : world) (id1 id2 : str) (b : Barrier) (c : ascii) (reply : str),
    connected_ b = true -> send_result w <> (-1)%Z ->
    recv_data w = Some (c :: reply) ->
    make_barrier_json id2 (snd (fst (wait w id1 b))) =
    q "{'barrier_id':'" ++ id2 ++ q "','variables':{}}".
Proof.
  intros w id1 id2 b c reply Hc Hs Hr.
  rewrite make_barrier_json_members, (wait_registry w id1 b Hc).
  apply Z.eqb_neq in Hs. rewrite Hs, Hr. reflexivity.
Qed.

Lemma request_after_reply_is_empty_witness :
  (connected_ (add_int (q "x") 1 sample_client) = true
   /\ send_result (answers 0 (Some (q "{'status':'failure'}"))) <> (-1)%Z)
  /\ make_barrier_json (q "final")
       (snd (fst (wait (answers 0 (Some (q "{'status':'failure'}")))
                    (q "init") (add_int (q "x") 1 sample_client))))
     = q "{'barrier_id':'final','variables':{}}".
Proof.
  split; [split; [reflexivity|discriminate]|].
  apply (request_after_reply_is_empty
           (answers 0 (Some (q "{'status':'failure'}"))) (q "init") (q "final")
           (add_int (q "x") 1 sample_client) "{"%char
           (q "'status':'failure'}"));
    [reflexivity | discriminate | reflexivity].
Defined.

(** ** The connection over the life of a client *)

Lemma do_call_keeps_connection (b : Barrier) (c : call) :
  program_id_ (do_call b c) = program_id_ b
  /\ socket_fd_ (do_call b c) = socket_fd_ b
  /\ connected_ (do_call b c) = connected_ b.
Proof.
  destruct c as [name v|w barrier_id]; simpl.
  - rewrite add_stores. now repeat split.
  - destruct (wait_frame w barrier_id b) as (H1 & H2 & H3 & _).
    now repeat split.
Qed.

Lemma run_keeps_connection (cs : list call) :
  forall b,
    program_id_ (run cs b) = program_id_ b
    /\ socket_fd_ (run cs b) = socket_fd_ b
    /\ connected_ (run cs b) = connected_ b.
Proof.
  induction cs as [|c cs IH]; intros b; simpl; [now repeat split|].
  destruct (IH (do_call b c)) as (H1 & H2 & H3).
  destruct (do_call_keeps_connection b c) as (G1 & G2 & G3).
  repeat split; congruence.
Qed.

Lemma Barrier_new_success (w : world) (uninit : Z) (pid : str) (b : Barrier)
  (ev : list event) :
  Barrier_new w uninit pid = (inr b, ev) ->
  b = mkBarrier pid (socket_result w) true [] /\ closed_fds ev = [].
Proof.
  intros H. pose proof (Barrier_new_cases w uninit pid) as C.
  destruct (getenv_CODETANGO_SOCKET w) as [path|].
  - destruct ((socket_result w =? -1) || (connect_result w =? -1)
              || (send_result w =? -1))%Z.
    + destruct C as (e & He & _). rewrite H in He. discriminate He.
    + rewrite H in C. injection C as -> ->. now split.
  - destruct C as (e & He & _). rewrite H in He. discriminate He.
Qed.

Lemma Barrier_new_sent (w : world) (uninit : Z) (pid : str) (b : Barrier)
  (ev : list event) :
  Barrier_new w uninit pid = (inr b, ev) -> sent ev = [handshake pid].
Proof.
  intros H. pose proof (Barrier_new_cases w uninit pid) as C.
  destruct (getenv_CODETANGO_SOCKET w) as [path|].
  - destruct ((socket_result w =? -1) || (connect_result w =? -1)
              || (send_result w =? -1))%Z.
    + destruct C as (e & He & _). rewrite H in He. discriminate He.
    + rewrite H in C. injection C as -> ->. reflexivity.
  - destruct C as (e & He & _). rewrite H in He. discriminate He.
Qed.

(** X13. A client that construction returned stays connected under every
    sequence of adds and waits, with the descriptor [socket] gave and the
    program identifier it was built with; so [wait] on it never throws, not
    even after a [wait] whose send or receive failed. *)
Theorem constructed_client_is_never_refused :
  forall (w : world) (uninit : Z) (pid : str) (b : Barrier) (ev : list event)
         (cs : list call) (w' : world) (barrier_id : str),
    Barrier_new w uninit pid = (inr b, ev) ->
    connected_ (run cs b) = true
    /\ socket_fd_ (run cs b) = socket_result w
    /\ program_id_ (run cs b) = pid
    /\ exists r, fst (fst (wait w' barrier_id (run cs b))) = inr r.
Proof.
  intros w uninit pid b ev cs w' barrier_id H.
  apply Barrier_new_success in H. destruct H as [-> _].
  destruct (run_keeps_connection cs (mkBarrier pid (socket_result w) true []))
    as (H1 & H2 & H3). simpl in H1, H2, H3.
  repeat split; auto.
  unfold wait. rewrite H3. simpl negb. cbv iota.
  destruct (send_result w' =? -1)%Z; [now eexists|].
  destruct (recv w' (4096 - 1)) as [received buffer].
  destruct (received <=? 0)%Z; now eexists.
Qed.

Lemma constructed_client_is_never_refused_witness :
  Barrier_new friendly_world 0 (q "program1")
  = (inr sample_client, snd (Barrier_new friendly_world 0 (q "program1")))
  /\ exists r,
       fst (fst (wait (answers (-1) None) (q "final")
                   (run [CallWait (answers 0 None) (q "init")] sample_client)))
       = inr r.
Proof.
  split; [reflexivity|].
  exact (proj2 (proj2 (proj2
           (constructed_client_is_never_refused
              friendly_world 0 (q "program1") sample_client
              (snd (Barrier_new friendly_world 0 (q "program1")))
              [CallWait (answers 0 None) (q "init")]
              (answers (-1) None) (q "final") eq_refl)))).
Defined.

(** X14. Construction closes what it opened: when it fails after [socket]
    gave a descriptor (the connect or the handshake send failed) it closes
    that descriptor, once; when it fails before, or succeeds, it closes
    nothing. *)
Theorem failed_construction_closes_its_socket :
  forall (w : world) (uninit : Z) (pid : str),
    closed_fds (snd (Barrier_new w uninit pid)) =
    match getenv_CODETANGO_SOCKET w, fst (Barrier_new w uninit pid) with
    | Some _, inl _ =>
        if (socket_result w =? -1)%Z then [] else [socket_result w]
    | _, _ => []
    end.
Proof.
  intros w uninit pid. unfold Barrier_new, connect.
  destruct (getenv_CODETANGO_SOCKET w) as [path|]; [|reflexivity].
  cbn [set_socket_fd socket_fd_ program_id_ connected_ variables_].
  destruct (socket_result w =? -1)%Z; [reflexivity|].
  destruct (connect_result w =? -1)%Z; [reflexivity|].
  destruct (send_result w =? -1)%Z; reflexivity.
Qed.

Lemma run_trace_run (cs : list call) :
  forall b, fst (run_trace cs b) = run cs b
            /\ closed_fds (snd (run_trace cs b)) = [].
Proof.
  induction cs as [|c cs IH]; intros b; [now split|].
  simpl run_trace. simpl run.
  destruct (call_trace b c) as [b1 ev1] eqn:E1.
  assert (Hb : b1 = do_call b c /\ closed_fds ev1 = []).
  { destruct c as [name v|w barrier_id]; simpl in E1; injection E1 as <- <-.
    - now split.
    - split; [reflexivity|]. apply wait_frame. }
  destruct Hb as [-> Hc].
  destruct (IH (do_call b c)) as [H1 H2].
  destruct (run_trace cs (do_call b c)) as [b2 ev2]. simpl in *.
  split; [exact H1|].
  unfold closed_fds in *. now rewrite flat_map_app, Hc, H2.
Qed.

(** X15. Over the life of a client -- construction that succeeds, any adds
    and waits, destruction -- the descriptor [socket] gave is closed exactly
    once, by the destructor, and nothing else is closed. *)
Theorem lifetime_closes_once :
  forall (w : world) (uninit : Z) (pid : str) (b : Barrier) (ev : list event)
         (cs : list call),
    Barrier_new w uninit pid = (inr b, ev) ->
    closed_fds (ev ++ snd (run_trace cs b)
                   ++ snd (Barrier_delete (fst (run_trace cs b))))
    = [socket_result w].
Proof.
  intros w uninit pid b ev cs H.
  apply Barrier_new_success in H. destruct H as [-> Hev].
  destruct (run_trace_run cs (mkBarrier pid (socket_result w) true []))
    as [Hr Hc].
  destruct (run_keeps_connection cs (mkBarrier pid (socket_result w) true []))
    as (_ & H2 & H3). simpl in H2, H3.
  unfold closed_fds in *. rewrite !flat_map_app, Hev, Hc, Hr.
  unfold Barrier_delete. now rewrite H3, H2.
Qed.

Lemma lifetime_closes_once_witness :
  Barrier_new friendly_world 0 (q "program1")
  = (inr sample_client, snd (Barrier_new friendly_world 0 (q "program1")))
  /\ closed_fds
       (snd (Barrier_new friendly_world 0 (q "program1"))
          ++ snd (run_trace [CallAdd (q "x") (Integer 1);
                             CallWait (answers 0 None) (q "init")]
                    sample_client)
          ++ snd (Barrier_delete
                    (fst (run_trace [CallAdd (q "x") (Integer 1);
                                     CallWait (answers 0 None) (q "init")]
                            sample_client))))
     = [3%Z].
Proof.
  split; [reflexivity|].
  exact (lifetime_closes_once friendly_world 0 (q "program1") sample_client
           (snd (Barrier_new friendly_world 0 (q "program1")))
           [CallAdd (q "x") (Integer 1); CallWait (answers 0 None) (q "init")]
           eq_refl).
Defined.

(** X16. The address construction connects to is the value of
    CODETANGO_SOCKET cut to 107 bytes: a longer path is truncated without
    an error, a path of up to 107 bytes is used as it is; and the descriptor
    connected is the one [socket] gave. *)
Theorem connect_path_is_truncated :
  forall (w : world) (uninit : Z) (pid : str) (fd : Z) (path : str),
    In (Connect fd path) (snd (Barrier_new w uninit pid)) ->
    fd = socket_result w
    /\ (length path <= 107)%nat
    /\ exists full,
         getenv_CODETANGO_SOCKET w = Some full
         /\ path = firstn 107 full
         /\ ((length full <= 107)%nat -> path = full).
Proof.
  intros w uninit pid fd path. unfold Barrier_new, connect.
  destruct (getenv_CODETANGO_SOCKET w) as [full|];
    [|simpl; intros [H|[]]; discriminate H].
  cbn [set_socket_fd socket_fd_ program_id_ connected_ variables_].
  change (sun_path_size - 1)%nat with 107%nat.
  assert (Hp : (length (firstn 107 full) <= 107)%nat
               /\ ((length full <= 107)%nat -> firstn 107 full = full)).
  { split; [rewrite length_firstn; lia|apply firstn_all2]. }
  remember (firstn 107 full) as p eqn:Ep. destruct Hp as [Hp1 Hp2].
  assert (G : forall evs : list event,
             In (Connect fd path)
                ([Getenv (q "CODETANGO_SOCKET"); Socket;
                  Connect (socket_result w) p] ++ evs) ->
             (forall f p', ~ In (Connect f p') evs) ->
             fd = socket_result w /\ (length path <= 107)%nat
             /\ exists full0, Some full = Some full0
                              /\ path = firstn 107 full0
                              /\ ((length full0 <= 107)%nat -> path = full0)).
  { intros evs Hin Hno. cbn [app In] in Hin.
    destruct Hin as [H|[H|[H|H]]]; try discriminate H.
    - injection H as H1 H2. subst fd path. split; [reflexivity|].
      split; [exact Hp1|].
      exists full. split; [reflexivity|]. split; [exact Ep|exact Hp2].
    - exfalso. exact (Hno _ _ H). }
  destruct (socket_result w =? -1)%Z.
  { cbn [snd app In]. intros [H|[H|[]]]; discriminate H. }
  destruct (connect_result w =? -1)%Z.
  { intros H. apply (G [Close (socket_result w)]); [exact H|].
    intros f p' [E|[]]. discriminate E. }
  destruct (send_result w =? -1)%Z; cbn [snd].
  - intros H.
    apply (G [Send (socket_result w)
                (q "{'program_id':'" ++ pid ++ q "'}");
              Close (socket_result w)]); [exact H|].
    intros f p' [E|[E|[]]]; discriminate E.
  - intros H.
    apply (G [Send (socket_result w)
                (q "{'program_id':'" ++ pid ++ q "'}")]); [exact H|].
    intros f p' [E|[]]. discriminate E.
Qed.

Lemma connect_path_is_truncated_witness :
  In (Connect 3 (q "/tmp/codetango.sock"))
     (snd (Barrier_new friendly_world 0 (q "program1")))
  /\ (length (q "/tmp/codetango.sock") <= 107)%nat.
Proof.
  assert (H : In (Connect 3 (q "/tmp/codetango.sock"))
                (snd (Barrier_new friendly_world 0 (q "program1")))).
  { simpl. right. right. left. reflexivity. }
  split; [exact H|].
  exact (proj1 (proj2 (connect_path_is_truncated friendly_world 0
                         (q "program1") 3 (q "/tmp/codetango.sock") H))).
Defined.

(** ** Numbers registered *)

Lemma read_ostream_int (z : Z) : read_int (ostream_int z) = Some z.
Proof. apply ostream_int_denotes. Qed.

(** X17. The text [add_int] stores reads back as the value: looking the name
    up gives the tag int and a decimal text that denotes exactly the [int]
    registered, negative values and zero included. *)
Theorem add_int_reads_back :
  forall (name : str) (z : Z) (b : Barrier),
    exists text,
      map_find name (variables_ (add_int name z b)) = Some (q "int", text)
      /\ read_int text = Some z.
Proof.
  intros name z b. exists (ostream_int z). split.
  - unfold add_int. simpl. now rewrite map_find_assign, str_eqb_refl.
  - apply read_ostream_int.
Qed.

Lemma strip_leading_zeros_repeat (n : nat) :
  strip_leading_zeros (repeat d0 n) = [].
Proof. induction n as [|n IH]; simpl; auto. Qed.

Lemma rev_repeat {A : Type} (x : A) (n : nat) :
  List.rev (repeat x n) = repeat x n.
Proof.
  induction n as [|n IH]; [reflexivity|].
  simpl. rewrite IH. clear IH.
  induction n as [|n IH]; [reflexivity|]. simpl. now rewrite IH.
Qed.

Lemma fraction_text_zeros (n : nat) : fraction_text (repeat d0 n) = [].
Proof.
  unfold fraction_text, strip_trailing_zeros.
  now rewrite rev_repeat, strip_leading_zeros_repeat.
Qed.

Lemma pos_digits_tenfold (p : positive) :
  to_list (Pos.to_uint (10 * p)) = to_list (Pos.to_uint p) ++ [d0].
Proof.
  unfold Pos.to_uint.
  change (Pos.to_little_uint (10 * p))
    with (DecimalPos.Unsigned.to_lu (10 * N.pos p)).
  rewrite DecimalPos.Unsigned.to_ldec_tenfold. simpl DecimalPos.Unsigned.to_lu.
  rewrite !rev_spec. reflexivity.
Qed.

Lemma pos_digits_times_pow10 (k : nat) (p : positive) :
  to_list (Pos.to_uint (Nat.iter k (Pos.mul 10) p))
  = to_list (Pos.to_uint p) ++ repeat d0 k.
Proof.
  induction k as [|k IH].
  - simpl. now rewrite app_nil_r.
  - change (Nat.iter (S k) (Pos.mul 10) p)
      with (10 * Nat.iter k (Pos.mul 10) p)%positive.
    rewrite pos_digits_tenfold, IH, <- app_assoc. f_equal.
    change [d0] with (repeat d0 1). rewrite <- repeat_app.
    now rewrite Nat.add_1_r.
Qed.

Lemma pos_times_pow10 (k : nat) (p : positive) :
  Z.pos (Nat.iter k (Pos.mul 10) p) = (Z.pos p * 10 ^ Z.of_nat k)%Z.
Proof.
  induction k as [|k IH].
  - simpl. lia.
  - change (Nat.iter (S k) (Pos.mul 10) p)
      with (10 * Nat.iter k (Pos.mul 10) p)%positive.
    rewrite Pos2Z.inj_mul, IH, Nat2Z.inj_succ, Z.pow_succ_r by lia. lia.
Qed.

Lemma firstn_repeat_min {A : Type} (x : A) (n k : nat) :
  firstn n (repeat x k) = repeat x (Nat.min n k).
Proof.
  revert k. induction n as [|n IH]; intros [|k]; simpl; auto.
  now rewrite IH.
Qed.

Lemma skipn_repeat_sub {A : Type} (x : A) (n k : nat) :
  skipn n (repeat x k) = repeat x (k - n).
Proof.
  revert k. induction n as [|n IH]; intros [|k]; simpl; auto.
Qed.

Lemma round_significant_zeros (ds : list digits) (k : nat) :
  (length ds <= 6)%nat ->
  round_significant 6 (ds ++ repeat d0 k)
  = (ds ++ repeat d0 (6 - length ds), 0%Z).
Proof.
  intros Hlen. unfold round_significant.
  rewrite firstn_app, skipn_app, length_app, repeat_length.
  rewrite (firstn_all2 (n := 6) ds) by lia.
  rewrite (skipn_all2 (n := 6) ds) by lia.
  rewrite firstn_repeat_min, skipn_repeat_sub. simpl app at 2.
  replace (rounds_up _ (repeat d0 (k - (6 - length ds)))) with false
    by (now destruct (k - (6 - length ds))%nat).
  rewrite <- app_assoc, <- repeat_app. do 3 f_equal. lia.
Qed.

Lemma format_g_whole (m : positive) (e : Z) (p : positive) :
  (0 <= e)%Z -> (Z.pos m * 2 ^ e)%Z = Z.pos p ->
  (length (to_list (Pos.to_uint p)) <= 6)%nat ->
  format_g m e = map digit_char (to_list (Pos.to_uint p)).
Proof.
  intros He Hn Hlen. unfold format_g.
  apply Z.leb_le in He. rewrite He. cbv iota.
  rewrite Hn. simpl Z.to_N. simpl N.to_uint.
  destruct (pos_digits_normal p) as (d & l & E & _).
  set (ds := to_list (Pos.to_uint p)) in *.
  assert (Hpos : (1 <= length ds)%nat) by (rewrite E; simpl; lia).
  unfold round_significant.
  rewrite (firstn_all2 (n := 6) ds) by lia.
  rewrite (skipn_all2 (n := 6) ds) by lia.
  cbn [rounds_up].
  replace ((-4 <=? Z.of_nat (length ds) - 1 + 0 + 0)
           && (Z.of_nat (length ds) - 1 + 0 + 0 <? 6))%Z with true
    by (symmetry; apply andb_true_iff; split;
        [apply Z.leb_le|apply Z.ltb_lt]; lia).
  replace (0 <=? Z.of_nat (length ds) - 1 + 0 + 0)%Z with true
    by (symmetry; apply Z.leb_le; lia).
  replace (Z.to_nat (Z.of_nat (length ds) - 1 + 0 + 0) + 1)%nat
    with (length ds + 0)%nat by lia.
  rewrite firstn_app_2, skipn_app, firstn_O, app_nil_r.
  rewrite Nat.add_0_r, skipn_all, Nat.sub_diag. simpl skipn. simpl app.
  now rewrite fraction_text_zeros, app_nil_r.
Qed.


Lemma format_g_whole_scaled (m : positive) (e : Z) (p : positive) :
  (e < 0)%Z -> Z.pos m = (Z.pos p * 2 ^ (- e))%Z ->
  (length (to_list (Pos.to_uint p)) <= 6)%nat ->
  format_g m e = map digit_char (to_list (Pos.to_uint p)).
Proof.
  intros He Hm Hlen. unfold format_g.
  replace (0 <=? e)%Z with false by (symmetry; apply Z.leb_gt; lia).
  cbv iota.
  assert (Hn : (Z.pos m * 5 ^ (- e))%Z
               = Z.pos (Nat.iter (Z.to_nat (- e)) (Pos.mul 10) p)).
  { rewrite pos_times_pow10, Z2Nat.id, Hm by lia.
    rewrite <- Z.mul_assoc, <- Z.pow_mul_l. reflexivity. }
  rewrite Hn. simpl Z.to_N. simpl N.to_uint.
  rewrite pos_digits_times_pow10.
  destruct (pos_digits_normal p) as (d & l & E & _).
  set (ds := to_list (Pos.to_uint p)) in *.
  assert (Hpos : (1 <= length ds)%nat) by (rewrite E; simpl; lia).
  rewrite round_significant_zeros by exact Hlen.
  rewrite length_app, repeat_length.
  replace (Z.of_nat (length ds + Z.to_nat (- e)) - 1 + e + 0)%Z
    with (Z.of_nat (length ds) - 1)%Z by lia.
  replace ((-4 <=? Z.of_nat (length ds) - 1)
           && (Z.of_nat (length ds) - 1 <? 6))%Z with true
    by (symmetry; apply andb_true_iff; split;
        [apply Z.leb_le|apply Z.ltb_lt]; lia).
  replace (0 <=? Z.of_nat (length ds) - 1)%Z with true
    by (symmetry; apply Z.leb_le; lia).
  replace (Z.to_nat (Z.of_nat (length ds) - 1) + 1)%nat
    with (length ds + 0)%nat by lia.
  rewrite firstn_app_2, skipn_app, firstn_O, app_nil_r.
  rewrite Nat.add_0_r, skipn_all, Nat.sub_diag. simpl skipn. simpl app.
  now rewrite fraction_text_zeros, app_nil_r.
Qed.

Lemma ostream_int_pos (p : positive) :
  ostream_int (Z.pos p) = map digit_char (to_list (Pos.to_uint p)).
Proof.
  unfold ostream_int. simpl Z.to_int.
  unfold DecimalString.NilZero.string_of_int.
  apply string_of_pos_digits.
Qed.

Lemma ostream_int_neg (p : positive) :
  ostream_int (Z.neg p) = "-"%char :: map digit_char (to_list (Pos.to_uint p)).
Proof.
  unfold ostream_int. simpl Z.to_int.
  unfold DecimalString.NilZero.string_of_int.
  change (list_ascii_of_string
            (String "-" (DecimalString.NilZero.string_of_uint (Pos.to_uint p))))
    with ("-"%char
            :: list_ascii_of_string
                 (DecimalString.NilZero.string_of_uint (Pos.to_uint p))).
  now rewrite string_of_pos_digits.
Qed.

(** The magnitude of a finite [double] that holds a whole number, and its
    text. *)
Lemma whole_finite_text (neg : bool) (m : positive) (e : Z) (z : Z) :
  whole_value (Dfinite neg m e) = Some z ->
  (length (ostream_int (Z.abs z)) <= 6)%nat ->
  exists p, z = (if neg then Z.neg p else Z.pos p)
            /\ format_g m e = map digit_char (to_list (Pos.to_uint p)).
Proof.
  unfold whole_value. intros Hw Hlen.
  destruct (0 <=? e)%Z eqn:He.
  - apply Z.leb_le in He.
    assert (Hp : exists p, (Z.pos m * 2 ^ e)%Z = Z.pos p).
    { assert (0 < Z.pos m * 2 ^ e)%Z
        by (apply Z.mul_pos_pos; [lia|apply Z.pow_pos_nonneg; lia]).
      destruct (Z.pos m * 2 ^ e)%Z as [|p|p]; try lia. now exists p. }
    destruct Hp as [p Hp]. rewrite Hp in Hw. exists p.
    assert (Hz : Z.abs z = Z.pos p) by (destruct neg; inversion Hw; reflexivity).
    rewrite Hz, ostream_int_pos, length_map in Hlen.
    split; [destruct neg; inversion Hw; reflexivity|].
    now apply format_g_whole.
  - apply Z.leb_gt in He.
    destruct (Z.pos m mod 2 ^ (- e) =? 0)%Z eqn:Hd; [|discriminate].
    apply Z.eqb_eq in Hd.
    assert (H2 : (0 < 2 ^ (- e))%Z) by (apply Z.pow_pos_nonneg; lia).
    pose proof (Z.div_mod (Z.pos m) (2 ^ (- e)) ltac:(lia)) as Hdm.
    rewrite Hd, Z.add_0_r in Hdm.
    assert (Hp : exists p, (Z.pos m / 2 ^ (- e))%Z = Z.pos p).
    { destruct (Z.pos m / 2 ^ (- e))%Z as [|p|p]; try nia. now exists p. }
    destruct Hp as [p Hp]. rewrite Hp in Hw, Hdm. exists p.
    assert (Hz : Z.abs z = Z.pos p) by (destruct neg; inversion Hw; reflexivity).
    rewrite Hz, ostream_int_pos, length_map in Hlen.
    split; [destruct neg; inversion Hw; reflexivity|].
    apply format_g_whole_scaled; [exact He|lia|exact Hlen].
Qed.

Lemma whole_double_text (d : double) (z : Z) :
  whole_value d = Some z ->
  (length (ostream_int (Z.abs z)) <= 6)%nat ->
  ostream_double d = if is_negative_zero d then q "-0" else ostream_int z.
Proof.
  destruct d as [[|]|neg'|neg'|neg m e]; intros Hw Hlen; try discriminate Hw.
  - reflexivity.
  - inversion Hw. reflexivity.
  - destruct (whole_finite_text neg m e z Hw Hlen) as (p & -> & Hg).
    unfold ostream_double, is_negative_zero. rewrite Hg.
    destruct neg; [now rewrite ostream_int_neg|now rewrite ostream_int_pos].
Qed.

(** X18. A [double] holding a whole number of at most six decimal digits is
    written like the [int]: [add_double] of such a value stores, under the
    tag double, the text that [add_int] of the number stores under the tag
    int, with no point and no exponent, whatever the exponent the value is
    held with.  The one exception is the negative zero, stored as -0 where
    the [int] 0 is stored as 0. *)
Theorem whole_double_prints_as_int :
  forall (name : str) (d : double) (z : Z) (b : Barrier),
    whole_value d = Some z ->
    (length (ostream_int (Z.abs z)) <= 6)%nat ->
    map_find name (variables_ (add_int name z b))
    = Some (q "int", ostream_int z)
    /\ map_find name (variables_ (add_double name d b))
       = Some (q "double",
               if is_negative_zero d then q "-0" else ostream_int z).
Proof.
  intros name d z b Hw Hlen. unfold add_int, add_double. simpl variables_.
  rewrite !map_find_assign, str_eqb_refl.
  now rewrite (whole_double_text d z Hw Hlen).
Qed.

Lemma whole_double_prints_as_int_witness :
  (whole_value (Dfinite true 4000 (-2)) = Some (-1000)%Z
   /\ (length (ostream_int (Z.abs (-1000))) <= 6)%nat)
  /\ map_find (q "x") (variables_ (add_int (q "x") (-1000) sample_client))
     = Some (q "int", q "-1000")
  /\ map_find (q "x")
       (variables_ (add_double (q "x") (Dfinite true 4000 (-2)) sample_client))
     = Some (q "double", q "-1000").
Proof.
  assert (H : (length (ostream_int (Z.abs (-1000))) <= 6)%nat)
    by (vm_compute; lia).
  assert (H0 : whole_value (Dfinite true 4000 (-2)) = Some (-1000)%Z)
    by reflexivity.
  split; [split; [exact H0|exact H]|].
  exact (whole_double_prints_as_int (q "x") (Dfinite true 4000 (-2))
           (-1000)%Z sample_client H0 H).
Defined.

(** ** Sequences registered *)

Lemma split_on_nonempty (sep : ascii) (s : str) : split_on sep s <> [].
Proof.
  destruct s as [|c s]; simpl; [discriminate|].
  destruct (Ascii.eqb c sep); [discriminate|].
  destruct (split_on sep s); discriminate.
Qed.

Lemma split_on_piece (sep : ascii) (t rest : str) :
  ~ In sep t ->
  split_on sep (t ++ sep :: rest) = t :: split_on sep rest.
Proof.
  induction t as [|c t IH]; intros Hn; simpl.
  - now rewrite Ascii.eqb_refl.
  - destruct (Ascii.eqb_spec c sep) as [->|_]; [simpl in Hn; tauto|].
    rewrite IH by (simpl in Hn; tauto). reflexivity.
Qed.

Lemma split_on_last (sep : ascii) (t : str) :
  ~ In sep t -> split_on sep t = [t].
Proof.
  induction t as [|c t IH]; intros Hn; simpl; [reflexivity|].
  destruct (Ascii.eqb_spec c sep) as [->|_]; [simpl in Hn; tauto|].
  rewrite IH by (simpl in Hn; tauto). reflexivity.
Qed.

Lemma split_on_join (sep : ascii) (texts : list str) :
  texts <> [] -> Forall (fun t => ~ In sep t) texts ->
  split_on sep (join [sep] texts) = texts.
Proof.
  induction texts as [|t texts IH]; intros Hne Hall; [congruence|].
  inversion Hall as [|? ? Ht Hts]; subst.
  destruct texts as [|t' texts].
  - simpl. now apply split_on_last.
  - change (join [sep] (t :: t' :: texts))
      with (t ++ sep :: join [sep] (t' :: texts)).
    rewrite split_on_piece by exact Ht.
    rewrite IH; [reflexivity|discriminate|exact Hts].
Qed.

Lemma digits_no_comma (l : list digits) : ~ In ","%char (map digit_char l).
Proof.
  induction l as [|d l IH]; simpl; [tauto|].
  intros [H|H]; [destruct d; discriminate H|tauto].
Qed.

Lemma ostream_int_shape (z : Z) :
  ~ In ","%char (ostream_int z) /\ ostream_int z <> [].
Proof.
  unfold ostream_int. destruct z as [|p|p]; simpl Z.to_int.
  - split; [simpl; intros [H|[]]; discriminate H|discriminate].
  - unfold DecimalString.NilZero.string_of_int. rewrite string_of_pos_digits.
    split; [apply digits_no_comma|].
    destruct (pos_digits_normal p) as (d & l & -> & _). discriminate.
  - unfold DecimalString.NilZero.string_of_int.
    change (list_ascii_of_string
              (String "-" (DecimalString.NilZero.string_of_uint (Pos.to_uint p))))
      with ("-"%char
              :: list_ascii_of_string
                   (DecimalString.NilZero.string_of_uint (Pos.to_uint p))).
    rewrite string_of_pos_digits. split; [|discriminate].
    intros [H|H]; [discriminate H|exact (digits_no_comma _ H)].
Qed.

Lemma read_all_ostream_int (l : list Z) :
  read_all (map ostream_int l) = Some l.
Proof.
  induction l as [|z l IH]; [reflexivity|].
  simpl. now rewrite read_ostream_int, IH.
Qed.

Lemma join_nonempty (sep : str) (texts : list str) :
  texts <> [] -> Forall (fun t => t <> []) texts -> join sep texts <> [].
Proof.
  destruct texts as [|t texts]; intros Hne Hall; [congruence|].
  inversion Hall as [|? ? Ht _]; subst.
  destruct t as [|c t]; [congruence|].
  destruct texts; simpl; discriminate.
Qed.

(** X19. The text [add_int_vector] stores reads back as the sequence
    registered: looking the name up gives the tag int_vector and a text
    that, read as a JSON array of integers, is exactly the vector -- the
    empty vector, written [], included. *)
Theorem add_int_vector_reads_back :
  forall (name : str) (values : list Z) (b : Barrier),
    exists text,
      map_find name (variables_ (add_int_vector name values b))
      = Some (q "int_vector", text)
      /\ read_int_array text = Some values.
Proof.
  intros name values b.
  exists (q "[" ++ join (q ",") (map ostream_int values) ++ q "]"). split.
  - unfold add_int_vector. simpl variables_.
    now rewrite map_find_assign, str_eqb_refl, vector_text.
  - unfold read_int_array.
    change (q "[" ++ join (q ",") (map ostream_int values) ++ q "]")
      with ("["%char :: (join (q ",") (map ostream_int values) ++ ["]"%char])).
    change (Ascii.eqb "[" "[") with true. cbv iota.
    rewrite rev_app_distr. cbn [List.rev app].
    change (Ascii.eqb "]" "]") with true. cbv iota.
    rewrite rev_involutive.
    destruct values as [|z values]; [reflexivity|].
    assert (Hne : join (q ",") (map ostream_int (z :: values)) <> []).
    { apply join_nonempty; [discriminate|].
      apply Forall_forall. intros t Ht. apply in_map_iff in Ht.
      destruct Ht as (z' & <- & _). apply ostream_int_shape. }
    destruct (join (q ",") (map ostream_int (z :: values))) as [|c body] eqn:E;
      [congruence|].
    rewrite <- E. change (q ",") with [","%char].
    rewrite split_on_join.
    + apply read_all_ostream_int.
    + discriminate.
    + apply Forall_forall. intros t Ht. apply in_map_iff in Ht.
      destruct Ht as (z' & <- & _). apply ostream_int_shape.
Qed.

(** ** The example program *)



Lemma sent_app (a b : list event) : sent (a ++ b) = sent a ++ sent b.
Proof. apply flat_map_app. Qed.


Lemma add_keeps_connection (name : str) (v : TypedValue) (b : Barrier) :
  connected_ (add name v b) = connected_ b
  /\ socket_fd_ (add name v b) = socket_fd_ b.
Proof. rewrite add_stores. now split. Qed.


Lemma after_wait_with_reply (w : world) (barrier_id : str) (b : Barrier) :
  connected_ b = true -> gets_reply w = true ->
  forall (A : Type) (k : Barrier -> (exn + A) * list event),
    after_wait (wait w barrier_id b) k
    = (fst (k (set_variables [] b)),
       Send (socket_fd_ b) (make_barrier_json barrier_id b)
         :: Recv (socket_fd_ b) 4095 :: snd (k (set_variables [] b))).
Proof.
  intros Hc Hr A k. unfold gets_reply in Hr.
  apply andb_true_iff in Hr. destruct Hr as [Hs Hd].
  apply negb_true_iff in Hs.
  unfold wait, recv. rewrite Hc, Hs. simpl negb. cbv iota.
  destruct (recv_data w) as [[|c reply]|]; try discriminate Hd.
  change (4096 - 1) with 4095.
  destruct (firstn 4095 (c :: reply)) as [|c' bytes] eqn:E;
    [discriminate E|].
  change (Z.of_nat (length (c' :: bytes)) <=? 0)%Z with false. cbv iota.
  unfold after_wait, map_clear. now destruct (k (set_variables [] b)).
Qed.

(** X21. When every wait of [solve_quadratic] gets a reply, each request
    carries exactly the variables registered for its checkpoint and none of
    an earlier one: a, b, c and discriminant at init; has_solutions,
    num_solutions and the roots at check_discriminant; solutions -- the
    roots converted to [int] -- and solutions_count, the number of roots
    returned, at final, which is not sent when there is no root. *)
Theorem solve_quadratic_requests :
  forall (ops : double_ops) (w0 w1 w2 w3 : world) (uninit : Z)
         (a b c : double) (barrier : Barrier) (ev0 : list event),
    Barrier_new w0 uninit (q "program1") = (inr barrier, ev0) ->
    gets_reply w1 = true -> gets_reply w2 = true -> gets_reply w3 = true ->
    let d := fsub ops (fmul ops b b) (fmul ops (fmul ops double_4 a) c) in
    exists solutions ev,
      solve_quadratic ops w0 w1 w2 w3 uninit a b c = (inr solutions, ev)
      /\ sent ev =
         handshake (q "program1")
           :: request (q "init")
                [(q "a", Double a); (q "b", Double b); (q "c", Double c);
                 (q "discriminant", Double d)]
           :: request (q "check_discriminant")
                (check_variables (fsqrt ops d) solutions)
           :: match solutions with
              | [] => []
              | _ :: _ =>
                  [request (q "final")
                     [(q "solutions",
                       IntegerSequence (map (int_of_double ops) solutions));
                      (q "solutions_count",
                       Integer (Z.of_nat (length solutions)))]]
              end.
Proof.
  intros ops w0 w1 w2 w3 uninit a b c barrier ev0 E0 R1 R2 R3 d.
  unfold solve_quadratic. fold d. rewrite E0.
  pose proof (Barrier_new_sent _ _ _ _ _ E0) as Hsent0.
  destruct (Barrier_new_success _ _ _ _ _ E0) as [-> _].
  rewrite after_wait_with_reply; [|reflexivity|exact R1]. cbv beta.
  destruct (flt ops d double_0).
  - rewrite after_wait_with_reply; [|reflexivity|exact R2]. cbv beta.
    exists []. eexists. split; [reflexivity|].
    rewrite sent_app, Hsent0. reflexivity.
  - destruct (feq ops d double_0); cbv beta iota zeta.
    + rewrite after_wait_with_reply; [|reflexivity|exact R2]. cbv beta.
      rewrite after_wait_with_reply; [|reflexivity|exact R3]. cbv beta.
      eexists. eexists. split; [reflexivity|].
      rewrite sent_app, Hsent0. reflexivity.
    + rewrite after_wait_with_reply; [|reflexivity|exact R2]. cbv beta.
      rewrite after_wait_with_reply; [|reflexivity|exact R3]. cbv beta.
      eexists. eexists. split; [reflexivity|].
      rewrite sent_app, Hsent0. reflexivity.
Qed.

Lemma solve_quadratic_requests_witness :
  (Barrier_new friendly_world 0 (q "program1")
   = (inr sample_client, snd (Barrier_new friendly_world 0 (q "program1")))
   /\ gets_reply friendly_world = true)
  /\ exists solutions ev,
       solve_quadratic sample_ops friendly_world friendly_world friendly_world
         friendly_world 0 (Dfinite false 1 0) (Dfinite true 1 1)
         (Dfinite false 1 0)
       = (inr solutions, ev)
       /\ length (sent ev) = 4%nat.
Proof.
  split; [split; reflexivity|].
  destruct (solve_quadratic_requests sample_ops friendly_world friendly_world
              friendly_world friendly_world 0 (Dfinite false 1 0)
              (Dfinite true 1 1) (Dfinite false 1 0) sample_client
              (snd (Barrier_new friendly_world 0 (q "program1")))
              eq_refl eq_refl eq_refl eq_refl)
    as (solutions & ev & H1 & H2).
  exists solutions, ev. split; [exact H1|].
  rewrite H2. vm_compute in H1. injection H1 as <- _. reflexivity.
Defined.
